(** * Raft core data model (clustering/generic/raft_core.hpp)

    A shallow embedding of the identity, configuration, log and persistent
    state classes of [raft_core.hpp], followed by the properties of their
    quorum predicates and log operations.

    Conventions:
    - [uint64_t] and [size_t] values are integers in [Z]; every arithmetic
      operation of the source is followed by its reduction modulo [2^64];
    - [std::set<raft_member_id_t>] is a [gset]; [std::deque] is a [list];
    - a function that may hit a [guarantee(...)] returns an [outcome]:
      either a value, or the crash with the message of the guarantee. *)

From Stdlib Require Import ZArith Lia.
From stdpp Require Import base decidable countable numbers list strings gmap fin_sets.

Local Open Scope Z_scope.
Set Warnings "-clear-no-such-hyp".

(** ** Machine integers *)

(** [typedef uint64_t raft_term_t; typedef uint64_t raft_log_index_t;]
    [size_t] has the same width on the platforms RethinkDB supports. *)
Definition uint64_modulus : Z := 2 ^ 64.
Definition wrap64 (z : Z) : Z := z mod uint64_modulus.
Definition is_uint64 (z : Z) : Prop := 0 ≤ z < uint64_modulus.

Definition raft_term_t : Type := Z.
Definition raft_log_index_t : Type := Z.
Definition size_t : Type := Z.

(** ** [guarantee] and crashes *)

Inductive outcome (A : Type) : Type :=
  | returns (a : A)
  | guarantee_failed (msg : string)
  | out_of_range.
Arguments returns {A} a.
Arguments guarantee_failed {A} msg.
Arguments out_of_range {A}.

Definition obind {A B} (x : outcome A) (k : A → outcome B) : outcome B :=
  match x with
  | returns a => k a
  | guarantee_failed msg => guarantee_failed msg
  | out_of_range => out_of_range
  end.

Notation "x ←! e ; k" := (obind e (λ x, k))
  (at level 100, e at next level, k at level 200, right associativity).
Notation "e ;;! k" := (obind e (λ _, k))
  (at level 100, k at level 200, right associativity).

(** Modelled from the spec: the [guarantee(cond, msg)] macro of errors.hpp,
    which is not among the sources.  The spec calls a violated precondition
    a contract violation without silent recovery: execution continues when
    [cond] holds and stops with [msg] otherwise. *)
Definition guarantee (cond : bool) (msg : string) : outcome unit :=
  if cond then returns tt else guarantee_failed msg.

Definition crashed {A} (x : outcome A) : Prop :=
  ∃ msg, x = guarantee_failed msg.

(** The two messages of the guarantees in [raft_log_t]. *)
Definition back_msg : string := "the log doesn't go back this far".
Definition forward_msg : string := "the log doesn't go forward this far".

(** ** Member identity *)

(** Modelled from the spec: [uuid_u] and [nil_uuid()] of containers/uuid.hpp,
    which is not among the sources.  The spec describes a member id as an
    opaque unique identity, UUID-equivalent; a UUID is 16 bytes, represented
    here by the number they spell, and the nil UUID by zero. *)
Definition uuid_u : Type := N.
Definition nil_uuid : uuid_u := 0%N.

Module raft_member_id_t.
Record t : Type := mk { uuid : uuid_u }.

(** The default constructor. *)
Definition nil : t := mk nil_uuid.
Definition is_nil (m : t) : bool := bool_decide (uuid m = nil_uuid).

#[export] Instance eq_dec : EqDecision t.
Proof. solve_decision. Defined.
#[export] Instance countable : Countable t :=
  inj_countable' uuid mk (λ m, match m with mk _ => eq_refl end).
End raft_member_id_t.
Import (hints) raft_member_id_t.

(** [std::set::count]: 1 when the element is present, 0 otherwise. *)
Definition std_set_count (m : raft_member_id_t.t) (X : gset raft_member_id_t.t) : size_t :=
  if decide (m ∈ X) then 1 else 0.

(** [std::set::size]. *)
Definition std_set_size (X : gset raft_member_id_t.t) : size_t := Z.of_nat (size X).

(** A [std::set] holds fewer than [2^63] elements ([max_size()] is below
    [PTRDIFF_MAX] divided by the node size). *)
Definition std_set_fits (X : gset raft_member_id_t.t) : Prop :=
  2 * std_set_size X < uint64_modulus.

(** ** [raft_config_t] *)

Module raft_config_t.
Record t : Type := mk {
  voting_members : gset raft_member_id_t.t;
  non_voting_members : gset raft_member_id_t.t
}.

Definition get_all_members (c : t) : gset raft_member_id_t.t :=
  let members : gset raft_member_id_t.t := ∅ in
  let members := members ∪ voting_members c in
  let members := members ∪ non_voting_members c in
  members.

Definition is_member (c : t) (member : raft_member_id_t.t) : bool :=
  (std_set_count member (voting_members c) =? 1)
  || (std_set_count member (non_voting_members c) =? 1).

(** The loop [for (m : members) votes += voting_members.count(m)], which
    visits every element of [members] once. *)
Definition count_votes (c : t) (members : gset raft_member_id_t.t) : size_t :=
  set_fold (λ m votes, wrap64 (votes + std_set_count m (voting_members c))) 0 members.

Definition is_quorum (c : t) (members : gset raft_member_id_t.t) : bool :=
  let votes := count_votes c members in
  wrap64 (votes * 2) >? std_set_size (voting_members c).

Definition is_valid_leader (c : t) (member : raft_member_id_t.t) : bool :=
  std_set_count member (voting_members c) =? 1.

(** [operator==] compares both sets ([std::set]s are equal when they hold
    the same elements); [operator!=] is its negation. *)
Definition operator_eq (c other : t) : bool :=
  bool_decide (voting_members c = voting_members other)
  && bool_decide (non_voting_members c = non_voting_members other).
Definition operator_ne (c other : t) : bool := negb (operator_eq c other).
End raft_config_t.

(** ** [raft_complex_config_t] *)

Module raft_complex_config_t.
Record t : Type := mk {
  config : raft_config_t.t;
  new_config : option raft_config_t.t
}.

Definition is_joint_consensus (c : t) : bool :=
  match new_config c with Some _ => true | None => false end.

Definition get_all_members (c : t) : gset raft_member_id_t.t :=
  let members := raft_config_t.get_all_members (config c) in
  match new_config c with
  | Some nc =>
      let members2 := raft_config_t.get_all_members nc in
      members ∪ members2
  | None => members
  end.

Definition is_member (c : t) (member : raft_member_id_t.t) : bool :=
  raft_config_t.is_member (config c) member
  || match new_config c with
     | Some nc => raft_config_t.is_member nc member
     | None => false
     end.

Definition is_quorum (c : t) (members : gset raft_member_id_t.t) : bool :=
  match new_config c with
  | Some nc =>
      raft_config_t.is_quorum (config c) members
      && raft_config_t.is_quorum nc members
  | None => raft_config_t.is_quorum (config c) members
  end.

Definition is_valid_leader (c : t) (member : raft_member_id_t.t) : bool :=
  raft_config_t.is_valid_leader (config c) member
  || match new_config c with
     | Some nc => raft_config_t.is_valid_leader nc member
     | None => false
     end.

(** [boost::optional]'s [==]: both empty, or both present with equal
    contents. *)
Definition optional_eq (x y : option raft_config_t.t) : bool :=
  match x, y with
  | Some a, Some b => raft_config_t.operator_eq a b
  | None, None => true
  | _, _ => false
  end.

Definition operator_eq (c other : t) : bool :=
  raft_config_t.operator_eq (config c) (config other)
  && optional_eq (new_config c) (new_config other).
Definition operator_ne (c other : t) : bool := negb (operator_eq c other).

(** Both voting sets have a size a [std::set] can have. *)
Definition fits (c : t) : Prop :=
  std_set_fits (raft_config_t.voting_members (config c))
  ∧ ∀ nc, new_config c = Some nc →
      std_set_fits (raft_config_t.voting_members nc).
End raft_complex_config_t.

(** ** The replicated state machine *)

(** The classes below are templates over [state_t], which must provide a
    member type [change_t] and a method [apply_change]. *)
Class state_requirements (state_t : Type) : Type := {
  change_t : Type;
  apply_change : state_t → change_t → state_t
}.

(** ** [raft_log_entry_t] *)

Module raft_log_entry_type_t.
Inductive t : Type := regular | config | noop.
End raft_log_entry_type_t.

Module raft_log_entry_t.
Record t (state_t : Type) `{!state_requirements state_t} : Type := mk {
  type : raft_log_entry_type_t.t;
  term : raft_term_t;
  change : option change_t;
  config : option raft_complex_config_t.t
}.
Arguments mk {state_t _} type term change config.
Arguments type {state_t _} _.
Arguments term {state_t _} _.
Arguments change {state_t _} _.
Arguments config {state_t _} _.
End raft_log_entry_t.

(** ** [std::deque] *)

Section deque.
Context {A : Type}.

(** [size()]. *)
Definition deque_size (d : list A) : size_t := Z.of_nat (length d).

(** [d[i]]; reading past the end has no defined behaviour. *)
Definition deque_at (d : list A) (i : size_t) : outcome A :=
  match d !! Z.to_nat i with
  | Some e => returns e
  | None => out_of_range
  end.

(** [d.erase(d.begin() + first, d.begin() + last)]; the iterators have to
    delimit a range of [d]. *)
Definition deque_erase (d : list A) (first last : size_t) : outcome (list A) :=
  if (first <=? last) && (last <=? deque_size d)
  then returns (take (Z.to_nat first) d ++ drop (Z.to_nat last) d)
  else out_of_range.

(** [push_back]. *)
Definition deque_push_back (d : list A) (e : A) : list A := d ++ [e].

(** A [std::deque] holds fewer than [2^64] elements, so that [size()]
    is a [size_t]. *)
Definition deque_fits (d : list A) : Prop := deque_size d < uint64_modulus.
End deque.

(** ** [raft_log_t] *)

Module raft_log_t.
Section with_state.
Context {state_t : Type} `{!state_requirements state_t}.

Record t : Type := mk {
  prev_index : raft_log_index_t;
  prev_term : raft_term_t;
  entries : list (raft_log_entry_t.t state_t)
}.

Definition get_latest_index (l : t) : raft_log_index_t :=
  wrap64 (prev_index l + deque_size (entries l)).

Definition get_entry_ref (l : t) (index : raft_log_index_t)
    : outcome (raft_log_entry_t.t state_t) :=
  guarantee (index >? prev_index l) "the log doesn't go back this far" ;;!
  guarantee (index <=? get_latest_index l)
    "the log doesn't go forward this far" ;;!
  deque_at (entries l) (wrap64 (wrap64 (index - prev_index l) - 1)).

Definition get_entry_term (l : t) (index : raft_log_index_t)
    : outcome raft_term_t :=
  guarantee (index >=? prev_index l) "the log doesn't go back this far" ;;!
  guarantee (index <=? get_latest_index l)
    "the log doesn't go forward this far" ;;!
  if index =? prev_index l then returns (prev_term l)
  else e ←! get_entry_ref l index; returns (raft_log_entry_t.term e).

Definition delete_entries_from (l : t) (index : raft_log_index_t)
    : outcome t :=
  guarantee (index >? prev_index l) "the log doesn't go back this far" ;;!
  guarantee (index <=? get_latest_index l)
    "the log doesn't go forward this far" ;;!
  entries' ←! deque_erase (entries l)
                (wrap64 (wrap64 (index - prev_index l) - 1))
                (deque_size (entries l));
  returns (mk (prev_index l) (prev_term l) entries').

Definition delete_entries_to (l : t) (index : raft_log_index_t)
    : outcome t :=
  guarantee (index >? prev_index l) "the log doesn't go back this far" ;;!
  guarantee (index <=? get_latest_index l)
    "the log doesn't go forward this far" ;;!
  index_term ←! get_entry_term l index;
  entries' ←! deque_erase (entries l) 0 (wrap64 (index - prev_index l));
  returns (mk index index_term entries').

Definition append (l : t) (entry : raft_log_entry_t.t state_t) : t :=
  mk (prev_index l) (prev_term l) (deque_push_back (entries l) entry).

(** The values a [raft_log_t] can hold: the index and the terms are
    [uint64_t] and the deque's size is a [size_t]. *)
Definition well_typed (l : t) : Prop :=
  is_uint64 (prev_index l)
  ∧ is_uint64 (prev_term l)
  ∧ deque_fits (entries l)
  ∧ Forall (λ e, is_uint64 (raft_log_entry_t.term e)) (entries l).
End with_state.
Arguments t state_t {_}.
End raft_log_t.

(** ** [raft_persistent_state_t] *)

Module raft_persistent_state_t.
Section with_state.
Context {state_t : Type} `{!state_requirements state_t}.

Record t : Type := mk {
  current_term : raft_term_t;
  voted_for : raft_member_id_t.t;
  snapshot_state : state_t;
  snapshot_config : raft_complex_config_t.t;
  log : raft_log_t.t state_t
}.

(** Modelled from the spec: the body of [make_initial], which the header
    only declares (its definition is in raft_core.tcc).  The spec gives
    the value returned:
    [{ term=0, voted_for=nil, snapshot_state=state,
       snapshot_config={config, no_new},
       log={prev_index=0, prev_term=0, entries=[]} }]. *)
Definition make_initial (initial_state : state_t)
    (initial_config : raft_config_t.t) : t :=
  {| current_term := 0;
     voted_for := raft_member_id_t.nil;
     snapshot_state := initial_state;
     snapshot_config := raft_complex_config_t.mk initial_config None;
     log := raft_log_t.mk 0 0 [] |}.
End with_state.
Arguments t state_t {_}.
End raft_persistent_state_t.

(** ** Sample values *)

Definition mid (n : N) : raft_member_id_t.t := raft_member_id_t.mk n.

(** A counter as the replicated state machine. *)
#[export] Instance counter_state : state_requirements Z :=
  {| change_t := Z; apply_change := Z.add |}.

Definition noop_entry (term : raft_term_t) : raft_log_entry_t.t Z :=
  raft_log_entry_t.mk raft_log_entry_type_t.noop term None None.

Definition log3 : raft_log_t.t Z :=
  raft_log_t.mk 10 2 [noop_entry 3; noop_entry 3; noop_entry 5].

Definition cfg3 : raft_config_t.t :=
  raft_config_t.mk {[mid 1; mid 2; mid 3]} {[mid 4]}.

(** A reconfiguration from [cfg3] to [cfg_next], and its joint consensus. *)
Definition cfg_next : raft_config_t.t :=
  raft_config_t.mk {[mid 3; mid 5; mid 6]} ∅.

Definition cfg_joint : raft_complex_config_t.t :=
  raft_complex_config_t.mk cfg3 (Some cfg_next).

(** A log without entries, and a log whose entry lies beyond the largest
    [uint64_t] index. *)
Definition log_empty : raft_log_t.t Z := raft_log_t.mk 10 2 [].

Definition log_wrapped : raft_log_t.t Z :=
  raft_log_t.mk (uint64_modulus - 1) 7 [noop_entry 7].

(** A log whose only entry sits at the largest [uint64_t] index. *)
Definition log_last : raft_log_t.t Z :=
  raft_log_t.mk (uint64_modulus - 2) 7 [noop_entry 7].

(** * Properties *)

(** ** The operations on sample values *)

Example cfg3_two_voters :
  raft_config_t.is_quorum cfg3 {[mid 1; mid 3; mid 4]} = true.
Proof. vm_compute. reflexivity. Qed.

Example cfg3_one_voter :
  raft_config_t.is_quorum cfg3 {[mid 1; mid 4; mid 9]} = false.
Proof. vm_compute. reflexivity. Qed.

Example log3_term_13 : raft_log_t.get_entry_term log3 13 = returns 5.
Proof. reflexivity. Qed.

Example log3_term_14 :
  raft_log_t.get_entry_term log3 14 = guarantee_failed forward_msg.
Proof. reflexivity. Qed.

Example log3_delete_to_12 :
  raft_log_t.delete_entries_to log3 12
  = returns (raft_log_t.mk 12 3 [noop_entry 5]).
Proof. reflexivity. Qed.

Example log3_delete_from_12 :
  raft_log_t.delete_entries_from log3 12
  = returns (raft_log_t.mk 10 2 [noop_entry 3]).
Proof. reflexivity. Qed.

Ltac solve_uint64 := unfold is_uint64, uint64_modulus; simpl; lia.

Ltac solve_well_typed :=
  unfold raft_log_t.well_typed, deque_fits, deque_size; simpl;
  repeat split; try solve_uint64; repeat constructor; solve_uint64.

(** ** Arithmetic modulo [2^64] *)

Lemma wrap64_small z : is_uint64 z → wrap64 z = z.
Proof. intros Hz. apply Z.mod_small. exact Hz. Qed.

Lemma wrap64_add_l a b : wrap64 (wrap64 a + b) = wrap64 (a + b).
Proof. unfold wrap64. apply Zplus_mod_idemp_l. Qed.

(** ** Quorums of a [raft_config_t] *)

Section config_facts.
Implicit Types (c : raft_config_t.t) (S X : gset raft_member_id_t.t).
Implicit Types (m : raft_member_id_t.t).

Lemma set_count_elem m X : m ∈ X → std_set_count m X = 1.
Proof. intros Hm. unfold std_set_count. by rewrite decide_True. Qed.

Lemma set_count_not_elem m X : m ∉ X → std_set_count m X = 0.
Proof. intros Hm. unfold std_set_count. by rewrite decide_False. Qed.

Lemma set_count_is_one m X : (std_set_count m X =? 1) = true ↔ m ∈ X.
Proof.
  unfold std_set_count. destruct (decide (m ∈ X)) as [Hin | Hout]; simpl.
  - split; [intros _; exact Hin | reflexivity].
  - split; [discriminate | intros Hin; contradiction].
Qed.

(** The loop counts the members of [S] that vote. *)
Lemma count_votes_inter c S :
  raft_config_t.count_votes c S
  = wrap64 (std_set_size (S ∩ raft_config_t.voting_members c)).
Proof.
  unfold raft_config_t.count_votes.
  set (V := raft_config_t.voting_members c).
  apply (set_fold_ind_L (λ r X, r = wrap64 (std_set_size (X ∩ V)))).
  - replace (∅ ∩ V) with (∅ : gset raft_member_id_t.t) by set_solver.
    reflexivity.
  - intros x X r Hx ->. rewrite wrap64_add_l. f_equal.
    destruct (decide (x ∈ V)) as [Hin | Hout].
    + rewrite (set_count_elem _ _ Hin).
      replace (({[x]} ∪ X) ∩ V) with ({[x]} ∪ X ∩ V) by set_solver.
      unfold std_set_size. rewrite (size_union {[x]} (X ∩ V)) by set_solver.
      rewrite size_singleton. lia.
    + rewrite (set_count_not_elem _ _ Hout).
      replace (({[x]} ∪ X) ∩ V) with (X ∩ V) by set_solver.
      lia.
Qed.

Lemma set_size_inter_le S X : 0 ≤ std_set_size (S ∩ X) ≤ std_set_size X.
Proof.
  unfold std_set_size. split; [lia |].
  apply inj_le, subseteq_size. set_solver.
Qed.

Lemma is_quorum_unfold c S :
  raft_config_t.is_quorum c S
  = (wrap64 (wrap64 (std_set_size (S ∩ raft_config_t.voting_members c)) * 2)
     >? std_set_size (raft_config_t.voting_members c)).
Proof. unfold raft_config_t.is_quorum. by rewrite count_votes_inter. Qed.
End config_facts.

(** C1: for a config whose voting set has a size a [std::set] can have,
    [is_quorum(S)] is true exactly when twice the number of voting members in
    [S] exceeds the number of voting members; with no voting member it is
    false for every [S], the empty set included. *)
Theorem is_quorum_iff_majority
    (c : raft_config_t.t) (S : gset raft_member_id_t.t)
    (Hfits : std_set_fits (raft_config_t.voting_members c)) :
  (raft_config_t.is_quorum c S = true
   ↔ 2 * std_set_size (S ∩ raft_config_t.voting_members c)
     > std_set_size (raft_config_t.voting_members c))
  ∧ (raft_config_t.voting_members c = ∅ →
     raft_config_t.is_quorum c S = false
     ∧ raft_config_t.is_quorum c ∅ = false).
Proof.
  assert (Hmaj : ∀ X, raft_config_t.is_quorum c X = true
    ↔ 2 * std_set_size (X ∩ raft_config_t.voting_members c)
      > std_set_size (raft_config_t.voting_members c)).
  { intros X. rewrite is_quorum_unfold.
    pose proof (set_size_inter_le X (raft_config_t.voting_members c)) as Hle.
    unfold std_set_fits in Hfits.
    rewrite (wrap64_small (std_set_size _)) by (unfold is_uint64; lia).
    rewrite wrap64_small by (unfold is_uint64; lia).
    rewrite Z.gtb_gt. lia. }
  split; [apply Hmaj |].
  intros Hempty.
  assert (Hnone : ∀ X, raft_config_t.is_quorum c X = false).
  { intros X. apply not_true_is_false. rewrite Hmaj, Hempty.
    replace (X ∩ ∅) with (∅ : gset raft_member_id_t.t) by set_solver.
    unfold std_set_size. rewrite size_empty. lia. }
  split; apply Hnone.
Qed.

Lemma is_quorum_iff_majority_cfg3 :
  std_set_fits (raft_config_t.voting_members cfg3)
  ∧ (raft_config_t.is_quorum cfg3 {[mid 1; mid 3; mid 4]} = true
     ↔ 2 * std_set_size ({[mid 1; mid 3; mid 4]} ∩ raft_config_t.voting_members cfg3)
       > std_set_size (raft_config_t.voting_members cfg3)).
Proof.
  assert (Hfits : std_set_fits (raft_config_t.voting_members cfg3))
    by (vm_compute; reflexivity).
  split; [exact Hfits |].
  exact (proj1 (is_quorum_iff_majority cfg3 {[mid 1; mid 3; mid 4]} Hfits)).
Defined.

(** C8: only the voting members of [S] matter: [is_quorum(S)] and
    [is_quorum(S ∩ voting_members)] are the same decision. *)
Theorem is_quorum_inter_voting
    (c : raft_config_t.t) (S : gset raft_member_id_t.t) :
  raft_config_t.is_quorum c S
  = raft_config_t.is_quorum c (S ∩ raft_config_t.voting_members c).
Proof.
  rewrite !is_quorum_unfold.
  set (V := raft_config_t.voting_members c).
  by replace (S ∩ V ∩ V) with (S ∩ V) by set_solver.
Qed.

(** ** [raft_complex_config_t] *)

(** C2: in a joint consensus [is_quorum(S)] holds exactly when [S] is a
    quorum of the old config and a quorum of the new config; for a single
    config it is that config's [is_quorum(S)]. *)
Theorem complex_is_quorum_both
    (old new : raft_config_t.t) (S : gset raft_member_id_t.t) :
  raft_complex_config_t.is_joint_consensus
    (raft_complex_config_t.mk old (Some new)) = true
  ∧ (raft_complex_config_t.is_quorum (raft_complex_config_t.mk old (Some new)) S = true
     ↔ raft_config_t.is_quorum old S = true ∧ raft_config_t.is_quorum new S = true)
  ∧ raft_complex_config_t.is_joint_consensus
      (raft_complex_config_t.mk old None) = false
  ∧ raft_complex_config_t.is_quorum (raft_complex_config_t.mk old None) S
    = raft_config_t.is_quorum old S.
Proof.
  split; [reflexivity |]. split; [| split; reflexivity].
  unfold raft_complex_config_t.is_quorum; simpl.
  apply andb_true_iff.
Qed.

(** C6: in a joint consensus [get_all_members()] is the union of the members
    of both configs and a valid leader is a valid leader of either; for a
    single config both are the config's own, a valid leader being a voting
    member. *)
Theorem complex_members_and_leaders
    (old new : raft_config_t.t) (m : raft_member_id_t.t) :
  raft_complex_config_t.get_all_members (raft_complex_config_t.mk old (Some new))
  = raft_config_t.get_all_members old ∪ raft_config_t.get_all_members new
  ∧ (raft_complex_config_t.is_valid_leader (raft_complex_config_t.mk old (Some new)) m = true
     ↔ raft_config_t.is_valid_leader old m = true
       ∨ raft_config_t.is_valid_leader new m = true)
  ∧ raft_complex_config_t.get_all_members (raft_complex_config_t.mk old None)
    = raft_config_t.get_all_members old
  ∧ raft_complex_config_t.is_valid_leader (raft_complex_config_t.mk old None) m
    = raft_config_t.is_valid_leader old m
  ∧ (raft_config_t.is_valid_leader old m = true
     ↔ m ∈ raft_config_t.voting_members old)
  ∧ raft_config_t.get_all_members old
    = raft_config_t.voting_members old ∪ raft_config_t.non_voting_members old.
Proof.
  repeat split.
  - unfold raft_complex_config_t.is_valid_leader; simpl.
    intros H. by apply orb_true_iff.
  - unfold raft_complex_config_t.is_valid_leader; simpl.
    intros H. by apply orb_true_iff.
  - unfold raft_complex_config_t.is_valid_leader; simpl.
    apply orb_false_r.
  - apply set_count_is_one.
  - apply set_count_is_one.
  - unfold raft_config_t.get_all_members. set_solver.
Qed.

(** ** [std::deque] operations within range *)

Section deque_facts.
Context {A : Type}.
Implicit Types (d : list A) (k : Z).

Lemma deque_size_nonneg d : 0 ≤ deque_size d.
Proof. unfold deque_size. lia. Qed.

Lemma deque_at_in_range d k :
  0 ≤ k < deque_size d →
  ∃ e, d !! Z.to_nat k = Some e ∧ deque_at d k = returns e.
Proof.
  unfold deque_size, deque_at. intros Hk.
  destruct (lookup_lt_is_Some_2 d (Z.to_nat k)) as [e He]; [lia |].
  exists e. by rewrite He.
Qed.

Lemma deque_erase_prefix d k :
  0 ≤ k ≤ deque_size d →
  deque_erase d 0 k = returns (drop (Z.to_nat k) d).
Proof.
  unfold deque_erase. intros Hk.
  replace ((0 <=? k) && (k <=? deque_size d)) with true
    by (symmetry; apply andb_true_iff; split; apply Z.leb_le; lia).
  reflexivity.
Qed.

Lemma deque_erase_suffix d k :
  0 ≤ k ≤ deque_size d →
  deque_erase d k (deque_size d) = returns (take (Z.to_nat k) d).
Proof.
  unfold deque_erase. intros Hk.
  replace ((k <=? deque_size d) && (deque_size d <=? deque_size d)) with true
    by (symmetry; apply andb_true_iff; split; apply Z.leb_le; lia).
  unfold deque_size. rewrite Nat2Z.id, drop_all. by rewrite app_nil_r.
Qed.

Lemma deque_size_drop d k :
  0 ≤ k ≤ deque_size d →
  deque_size (drop (Z.to_nat k) d) = deque_size d - k.
Proof. unfold deque_size. rewrite length_drop. lia. Qed.

Lemma deque_size_take d k :
  0 ≤ k ≤ deque_size d →
  deque_size (take (Z.to_nat k) d) = k.
Proof. unfold deque_size. rewrite length_take. lia. Qed.

Lemma deque_size_push_back d e :
  deque_size (deque_push_back d e) = deque_size d + 1.
Proof. unfold deque_size, deque_push_back. rewrite length_app. simpl. lia. Qed.
End deque_facts.

(** ** [raft_log_t] *)

Section log_facts.
Context {state_t : Type} `{!state_requirements state_t}.
Implicit Types (l : raft_log_t.t state_t) (e : raft_log_entry_t.t state_t).
Implicit Types (i j : raft_log_index_t).

Import raft_log_t.

Lemma get_latest_index_uint64 l : is_uint64 (get_latest_index l).
Proof. apply Z.mod_pos_bound. reflexivity. Qed.

(** When the latest index is not below [prev_index], the sum in
    [get_latest_index] has not wrapped around. *)
Lemma get_latest_index_no_wrap l :
  well_typed l → prev_index l ≤ get_latest_index l →
  get_latest_index l = prev_index l + deque_size (entries l).
Proof.
  intros (Hp & _ & Hd & _) Hle. unfold deque_fits, is_uint64 in *.
  pose proof (deque_size_nonneg (entries l)) as Hn.
  destruct (Z_lt_dec (prev_index l + deque_size (entries l)) uint64_modulus)
    as [Hsmall | Hbig].
  - apply wrap64_small. unfold is_uint64. lia.
  - exfalso. revert Hle. unfold get_latest_index, wrap64.
    rewrite <- (Zmod_unique _ uint64_modulus 1
               (prev_index l + deque_size (entries l) - uint64_modulus)); lia.
Qed.

(** The three outcomes of [get_entry_ref], one per guarantee. *)
Lemma get_entry_ref_cases l j :
  is_uint64 (prev_index l) →
  get_entry_ref l j =
    if j >? prev_index l then
      if j <=? get_latest_index l
      then deque_at (entries l) (j - prev_index l - 1)
      else guarantee_failed forward_msg
    else guarantee_failed back_msg.
Proof.
  intros Hp. unfold get_entry_ref.
  destruct (Z.gtb_spec j (prev_index l)) as [Hgt | Hle]; [| reflexivity].
  destruct (Z.leb_spec j (get_latest_index l)) as [Hin | Hout]; [| reflexivity].
  simpl. pose proof (get_latest_index_uint64 l) as Hlat.
  unfold is_uint64 in *.
  rewrite (wrap64_small (j - prev_index l)) by (unfold is_uint64; lia).
  rewrite wrap64_small by (unfold is_uint64; lia).
  reflexivity.
Qed.

Lemma get_entry_term_cases l j :
  is_uint64 (prev_index l) →
  get_entry_term l j =
    if j >=? prev_index l then
      if j <=? get_latest_index l then
        if j =? prev_index l then returns (prev_term l)
        else e ←! deque_at (entries l) (j - prev_index l - 1);
             returns (raft_log_entry_t.term e)
      else guarantee_failed forward_msg
    else guarantee_failed back_msg.
Proof.
  intros Hp. unfold get_entry_term.
  destruct (Z.geb_spec j (prev_index l)) as [Hge | Hlt]; [| reflexivity].
  destruct (Z.leb_spec j (get_latest_index l)) as [Hin | Hout]; [| reflexivity].
  simpl. destruct (Z.eqb_spec j (prev_index l)) as [Heq | Hne]; [reflexivity |].
  rewrite get_entry_ref_cases by exact Hp.
  destruct (Z.gtb_spec j (prev_index l)) as [_ | Hle]; [| lia].
  destruct (Z.leb_spec j (get_latest_index l)) as [_ | Hgt]; [| lia].
  reflexivity.
Qed.

(** An index between [prev_index + 1] and the latest index names an
    element of [entries]. *)
Lemma get_entry_ref_in_range l i :
  well_typed l → prev_index l < i ≤ get_latest_index l →
  ∃ e, entries l !! Z.to_nat (i - prev_index l - 1) = Some e
       ∧ get_entry_ref l i = returns e
       ∧ get_entry_term l i = returns (raft_log_entry_t.term e).
Proof.
  intros Hwf Hi.
  pose proof (get_latest_index_no_wrap l Hwf ltac:(lia)) as Hlat.
  destruct (deque_at_in_range (entries l) (i - prev_index l - 1))
    as (e & He & Hat); [lia |].
  exists e. split; [exact He |].
  rewrite get_entry_term_cases, get_entry_ref_cases by apply Hwf.
  destruct (Z.gtb_spec i (prev_index l)); [| lia].
  destruct (Z.geb_spec i (prev_index l)); [| lia].
  destruct (Z.leb_spec i (get_latest_index l)); [| lia].
  destruct (Z.eqb_spec i (prev_index l)); [lia |].
  rewrite Hat. split; reflexivity.
Qed.

Lemma delete_entries_to_in_range l i :
  well_typed l → prev_index l < i ≤ get_latest_index l →
  ∃ e, entries l !! Z.to_nat (i - prev_index l - 1) = Some e
       ∧ delete_entries_to l i
         = returns (mk i (raft_log_entry_t.term e)
                      (drop (Z.to_nat (i - prev_index l)) (entries l))).
Proof.
  intros Hwf Hi.
  pose proof (get_latest_index_no_wrap l Hwf ltac:(lia)) as Hlat.
  pose proof (get_latest_index_uint64 l) as Hu.
  destruct (get_entry_ref_in_range l i Hwf Hi) as (e & He & _ & Hterm).
  exists e. split; [exact He |].
  unfold delete_entries_to. rewrite Hterm.
  destruct (Z.gtb_spec i (prev_index l)); [| lia].
  destruct (Z.leb_spec i (get_latest_index l)); [| lia].
  simpl. destruct Hwf as (Hp & _ & _). unfold is_uint64 in *.
  rewrite wrap64_small by (unfold is_uint64; lia).
  rewrite deque_erase_prefix by lia. reflexivity.
Qed.

Lemma delete_entries_from_in_range l i :
  well_typed l → prev_index l < i ≤ get_latest_index l →
  delete_entries_from l i
  = returns (mk (prev_index l) (prev_term l)
               (take (Z.to_nat (i - prev_index l - 1)) (entries l))).
Proof.
  intros Hwf Hi.
  pose proof (get_latest_index_no_wrap l Hwf ltac:(lia)) as Hlat.
  pose proof (get_latest_index_uint64 l) as Hu.
  unfold delete_entries_from.
  destruct (Z.gtb_spec i (prev_index l)); [| lia].
  destruct (Z.leb_spec i (get_latest_index l)); [| lia].
  simpl. destruct Hwf as (Hp & _ & _). unfold is_uint64 in *.
  rewrite (wrap64_small (i - prev_index l)) by (unfold is_uint64; lia).
  rewrite wrap64_small by (unfold is_uint64; lia).
  rewrite deque_erase_suffix by lia. reflexivity.
Qed.

(** *** What is left after [delete_entries_to] *)

Lemma deque_at_drop (d : list (raft_log_entry_t.t state_t)) (n k : Z) :
  0 ≤ n → 0 ≤ k →
  deque_at (drop (Z.to_nat n) d) k = deque_at d (n + k).
Proof.
  intros Hn Hk. unfold deque_at. rewrite lookup_drop.
  replace (Z.to_nat n + Z.to_nat k)%nat with (Z.to_nat (n + k)) by lia.
  reflexivity.
Qed.

Lemma deque_at_take (d : list (raft_log_entry_t.t state_t)) (n k : Z) :
  0 ≤ k < n →
  deque_at (take (Z.to_nat n) d) k = deque_at d k.
Proof.
  intros Hk. unfold deque_at. rewrite lookup_take_lt by lia. reflexivity.
Qed.

Lemma prefix_deleted_reads l i e :
  well_typed l → prev_index l < i ≤ get_latest_index l →
  entries l !! Z.to_nat (i - prev_index l - 1) = Some e →
  let l' := mk i (raft_log_entry_t.term e)
              (drop (Z.to_nat (i - prev_index l)) (entries l)) in
  well_typed l'
  ∧ get_latest_index l' = get_latest_index l
  ∧ (∀ j, i < j → get_entry_ref l' j = get_entry_ref l j)
  ∧ (∀ j, i ≤ j → get_entry_term l' j = get_entry_term l j).
Proof.
  intros Hwf Hi He l'.
  pose proof (get_latest_index_no_wrap l Hwf ltac:(lia)) as Hlat.
  pose proof (get_latest_index_uint64 l) as Hu.
  destruct (get_entry_ref_in_range l i Hwf Hi) as (e' & He' & _ & Hterm).
  assert (e' = e) as -> by congruence.
  destruct Hwf as (Hp & Hpt & Hd & Hterms).
  assert (Hlat' : get_latest_index l' = get_latest_index l).
  { unfold get_latest_index at 1. simpl.
    rewrite deque_size_drop by lia.
    replace (i + (deque_size (entries l) - (i - prev_index l)))
      with (prev_index l + deque_size (entries l)) by lia.
    reflexivity. }
  assert (Hi' : is_uint64 i) by (unfold is_uint64 in *; lia).
  assert (Hwf' : well_typed l').
  { repeat split; simpl; try apply Hi'.
    - apply (Forall_lookup_1 _ _ _ _ Hterms He).
    - apply (Forall_lookup_1 _ _ _ _ Hterms He).
    - unfold deque_fits in *. rewrite deque_size_drop by lia. lia.
    - by apply Forall_drop. }
  split; [exact Hwf' |]. split; [exact Hlat' |]. split.
  - intros j Hj. rewrite !get_entry_ref_cases by assumption.
    rewrite Hlat'. simpl.
    destruct (Z.gtb_spec j i); [| lia].
    destruct (Z.gtb_spec j (prev_index l)); [| lia].
    destruct (Z.leb_spec j (get_latest_index l)); [| reflexivity].
    rewrite deque_at_drop by lia. f_equal. lia.
  - intros j Hj. destruct (Z.eq_dec j i) as [-> | Hne].
    + rewrite Hterm, get_entry_term_cases by assumption.
      rewrite Hlat'. simpl.
      destruct (Z.geb_spec i i); [| lia].
      destruct (Z.leb_spec i (get_latest_index l)); [| lia].
      by rewrite Z.eqb_refl.
    + rewrite !get_entry_term_cases by assumption.
      rewrite Hlat'. simpl.
      destruct (Z.geb_spec j i); [| lia].
      destruct (Z.geb_spec j (prev_index l)); [| lia].
      destruct (Z.leb_spec j (get_latest_index l)); [| reflexivity].
      destruct (Z.eqb_spec j i); [lia |].
      destruct (Z.eqb_spec j (prev_index l)); [lia |].
      rewrite deque_at_drop by lia. do 2 f_equal. lia.
Qed.

(** *** What is left after [delete_entries_from] *)

Lemma suffix_deleted_reads l i :
  well_typed l → prev_index l < i ≤ get_latest_index l →
  let l' := mk (prev_index l) (prev_term l)
              (take (Z.to_nat (i - prev_index l - 1)) (entries l)) in
  well_typed l'
  ∧ get_latest_index l' = i - 1
  ∧ (∀ j, j < i → get_entry_ref l' j = get_entry_ref l j)
  ∧ (∀ j, j < i → get_entry_term l' j = get_entry_term l j).
Proof.
  intros Hwf Hi l'.
  pose proof (get_latest_index_no_wrap l Hwf ltac:(lia)) as Hlat.
  pose proof (get_latest_index_uint64 l) as Hu.
  destruct Hwf as (Hp & Hpt & Hd & Hterms).
  assert (Hlat' : get_latest_index l' = i - 1).
  { unfold get_latest_index. simpl.
    rewrite deque_size_take by lia.
    rewrite wrap64_small; unfold is_uint64 in *; lia. }
  assert (Hwf' : well_typed l').
  { repeat split; simpl; try apply Hp; try apply Hpt.
    - unfold deque_fits in *. rewrite deque_size_take by lia.
      unfold is_uint64 in *. lia.
    - by apply Forall_take. }
  split; [exact Hwf' |]. split; [exact Hlat' |]. split.
  - intros j Hj. rewrite !get_entry_ref_cases by assumption.
    rewrite Hlat'. simpl.
    destruct (Z.gtb_spec j (prev_index l)); [| reflexivity].
    destruct (Z.leb_spec j (i - 1)); [| lia].
    destruct (Z.leb_spec j (get_latest_index l)); [| lia].
    apply deque_at_take. lia.
  - intros j Hj. rewrite !get_entry_term_cases by assumption.
    rewrite Hlat'. simpl.
    destruct (Z.geb_spec j (prev_index l)); [| reflexivity].
    destruct (Z.leb_spec j (i - 1)); [| lia].
    destruct (Z.leb_spec j (get_latest_index l)); [| lia].
    destruct (Z.eqb_spec j (prev_index l)); [reflexivity |].
    f_equal. apply deque_at_take. lia.
Qed.

(** *** [append] at the end of the index space *)

(** Once [prev_index + |entries| + 1] no longer fits in a [uint64_t], the
    latest index after [append] is not above [prev_index], and reading it
    fails the first guarantee of [get_entry_ref]. *)
Lemma append_wrapped_unreadable l e :
  well_typed l →
  uint64_modulus - 1 ≤ prev_index l + deque_size (entries l) →
  get_latest_index (append l e) ≤ prev_index l
  ∧ get_entry_ref (append l e) (get_latest_index (append l e))
    = guarantee_failed back_msg.
Proof.
  intros (Hp & _ & Hd & _) Hfull. unfold deque_fits, is_uint64 in *.
  assert (Hlat : get_latest_index (append l e)
                 = prev_index l + deque_size (entries l) + 1 - uint64_modulus).
  { unfold get_latest_index, wrap64. simpl. rewrite deque_size_push_back.
    symmetry. apply (Zmod_unique _ uint64_modulus 1); lia. }
  split; [lia |].
  unfold get_entry_ref.
  destruct (Z.gtb_spec (get_latest_index (append l e)) (prev_index (append l e)))
    as [Hgt | _]; [simpl in Hgt; lia | reflexivity].
Qed.

Lemma get_entry_ref_outside l j :
  ¬ (prev_index l < j ≤ get_latest_index l) → crashed (get_entry_ref l j).
Proof.
  intros Hout. unfold get_entry_ref.
  destruct (Z.gtb_spec j (prev_index l)); [| by eexists].
  destruct (Z.leb_spec j (get_latest_index l)); [lia | by eexists].
Qed.

Lemma get_entry_term_outside l j :
  ¬ (prev_index l ≤ j ≤ get_latest_index l) → crashed (get_entry_term l j).
Proof.
  intros Hout. unfold get_entry_term.
  destruct (Z.geb_spec j (prev_index l)); [| by eexists].
  destruct (Z.leb_spec j (get_latest_index l)); [lia | by eexists].
Qed.
End log_facts.

(** ** Contracts of the log operations *)

Section log_contracts.
Context {state_t : Type} `{!state_requirements state_t}.
Implicit Types (l : raft_log_t.t state_t) (e : raft_log_entry_t.t state_t).
Implicit Types (i j : raft_log_index_t).

Import raft_log_t.

(** C3: [get_latest_index()] is [prev_index + |entries|] in [uint64_t]
    arithmetic; for an index [i] with [prev_index <= i <= get_latest_index()],
    [get_entry_term(i)] returns [prev_term] when [i = prev_index] and
    otherwise the term of the entry stored at index [i], which
    [get_entry_ref(i)] returns; outside that range a guarantee fails and no
    value is returned. *)
Theorem get_entry_term_contract l i (Hwf : well_typed l) :
  get_latest_index l = wrap64 (prev_index l + deque_size (entries l))
  ∧ (prev_index l ≤ i ≤ get_latest_index l →
     get_latest_index l = prev_index l + deque_size (entries l)
     ∧ (i = prev_index l → get_entry_term l i = returns (prev_term l))
     ∧ (i ≠ prev_index l →
        ∃ e, entries l !! Z.to_nat (i - prev_index l - 1) = Some e
             ∧ get_entry_ref l i = returns e
             ∧ get_entry_term l i = returns (raft_log_entry_t.term e)))
  ∧ (¬ (prev_index l ≤ i ≤ get_latest_index l) →
     crashed (get_entry_term l i))
  ∧ (¬ (prev_index l < i ≤ get_latest_index l) →
     crashed (get_entry_ref l i)).
Proof.
  split; [reflexivity |].
  split; [| split; [apply get_entry_term_outside | apply get_entry_ref_outside]].
  intros Hi. split; [apply get_latest_index_no_wrap; [exact Hwf | lia] |].
  split.
  - intros ->. rewrite get_entry_term_cases by apply Hwf.
    destruct (Z.geb_spec (prev_index l) (prev_index l)); [| lia].
    destruct (Z.leb_spec (prev_index l) (get_latest_index l)); [| lia].
    by rewrite Z.eqb_refl.
  - intros Hne. apply get_entry_ref_in_range; [exact Hwf | lia].
Qed.

(** C4: for [prev_index < i <= get_latest_index()], [delete_entries_to(i)]
    drops the first [i - prev_index] entries, which are those at indices up
    to [i], sets [prev_index] to [i] and [prev_term] to the term of the
    entry stored at index [i], that is of [entries[i - prev_index - 1]],
    which is also what [get_entry_term(i)] returned before; every index
    above [i] still reads the same entry.  With [i] above the latest index a
    guarantee fails. *)
Theorem delete_entries_to_contract l i (Hwf : well_typed l) :
  (prev_index l < i ≤ get_latest_index l →
   ∃ l', delete_entries_to l i = returns l'
         ∧ prev_index l' = i
         ∧ (∃ e, entries l !! Z.to_nat (i - prev_index l - 1) = Some e
                 ∧ prev_term l' = raft_log_entry_t.term e)
         ∧ get_entry_term l i = returns (prev_term l')
         ∧ entries l' = drop (Z.to_nat (i - prev_index l)) (entries l)
         ∧ (∀ j, j ≤ i → crashed (get_entry_ref l' j))
         ∧ (∀ j, i < j → get_entry_ref l' j = get_entry_ref l j)
         ∧ well_typed l')
  ∧ (get_latest_index l < i → crashed (delete_entries_to l i)).
Proof.
  split.
  - intros Hi.
    destruct (delete_entries_to_in_range l i Hwf Hi) as (e & He & Hdel).
    destruct (get_entry_ref_in_range l i Hwf Hi) as (e' & He' & _ & Hterm).
    assert (e' = e) as -> by congruence.
    destruct (prefix_deleted_reads l i e Hwf Hi He) as (Hwf' & _ & Href & _).
    eexists. split; [exact Hdel |]. simpl.
    split; [reflexivity |].
    split; [exists e; split; [exact He | reflexivity] |].
    repeat split; try assumption; try apply Hwf'.
    intros j Hj. apply get_entry_ref_outside. simpl. lia.
  - intros Hi. unfold delete_entries_to.
    destruct (Z.gtb_spec i (prev_index l)); [| by eexists].
    destruct (Z.leb_spec i (get_latest_index l)); [lia | by eexists].
Qed.

(** C5: for [prev_index < i <= get_latest_index()],
    [delete_entries_from(i)] removes the entry at index [i] and all later
    ones: the latest index becomes [i - 1], [prev_index] and [prev_term]
    stay, and every index below [i] reads as before. *)
Theorem delete_entries_from_contract l i
    (Hwf : well_typed l) (Hi : prev_index l < i ≤ get_latest_index l) :
  ∃ l', delete_entries_from l i = returns l'
        ∧ get_latest_index l' = i - 1
        ∧ prev_index l' = prev_index l
        ∧ prev_term l' = prev_term l
        ∧ entries l' = take (Z.to_nat (i - prev_index l - 1)) (entries l)
        ∧ (∀ j, j < i → get_entry_ref l' j = get_entry_ref l j)
        ∧ (∀ j, j < i → get_entry_term l' j = get_entry_term l j)
        ∧ (∀ j, i ≤ j → crashed (get_entry_ref l' j))
        ∧ well_typed l'.
Proof.
  destruct (suffix_deleted_reads l i Hwf Hi) as (Hwf' & Hlat' & Href & Hterm).
  eexists. split; [by apply delete_entries_from_in_range |].
  repeat split; try assumption; try apply Hwf'.
  intros j Hj. apply get_entry_ref_outside. rewrite Hlat'. lia.
Qed.

(** C9: for [prev_index < i <= get_latest_index()], [delete_entries_to(i)]
    keeps [get_latest_index()], and [get_entry_term(j)] returns the same
    term before and after for every [j] from [i] to the latest index. *)
Theorem delete_entries_to_keeps_terms l i
    (Hwf : well_typed l) (Hi : prev_index l < i ≤ get_latest_index l) :
  ∃ l', delete_entries_to l i = returns l'
        ∧ get_latest_index l' = get_latest_index l
        ∧ ∀ j, i ≤ j ≤ get_latest_index l →
            ∃ t, get_entry_term l j = returns t
                 ∧ get_entry_term l' j = returns t.
Proof.
  destruct (delete_entries_to_in_range l i Hwf Hi) as (e & He & Hdel).
  destruct (prefix_deleted_reads l i e Hwf Hi He) as (_ & Hlat' & _ & Hterm).
  eexists. split; [exact Hdel |]. split; [exact Hlat' |].
  intros j Hj.
  destruct (get_entry_ref_in_range l j Hwf ltac:(lia)) as (ej & _ & _ & Hj').
  exists (raft_log_entry_t.term ej). split; [exact Hj' |].
  rewrite Hterm by lia. exact Hj'.
Qed.

(** C10, amended: when [prev_index + |entries| + 1] is still a [uint64_t],
    [append(e)] leaves [prev_index], [prev_term] and the stored entries as
    they are, raises [get_latest_index()] by one and makes [e] the entry
    read at the new latest index. *)
Theorem append_below_max l e
    (Hwf : well_typed l)
    (Hroom : prev_index l + deque_size (entries l) < uint64_modulus - 1) :
  prev_index (append l e) = prev_index l
  ∧ prev_term (append l e) = prev_term l
  ∧ (∀ k x, entries l !! k = Some x → entries (append l e) !! k = Some x)
  ∧ (∀ j, j ≤ get_latest_index l →
       get_entry_ref (append l e) j = get_entry_ref l j
       ∧ get_entry_term (append l e) j = get_entry_term l j)
  ∧ get_latest_index (append l e) = get_latest_index l + 1
  ∧ get_entry_ref (append l e) (get_latest_index (append l e)) = returns e.
Proof.
  destruct Hwf as (Hp & Hpt & Hd & Hterms).
  pose proof (deque_size_nonneg (entries l)) as Hn.
  assert (Hlat : get_latest_index l = prev_index l + deque_size (entries l)).
  { apply wrap64_small. unfold is_uint64 in *. lia. }
  assert (Hlat' : get_latest_index (append l e)
                  = prev_index l + deque_size (entries l) + 1).
  { unfold get_latest_index. simpl. rewrite deque_size_push_back.
    rewrite wrap64_small; unfold is_uint64 in *; lia. }
  assert (Hold : ∀ k, 0 ≤ k < deque_size (entries l) →
            deque_at (deque_push_back (entries l) e) k = deque_at (entries l) k).
  { intros k Hk. unfold deque_at, deque_push_back, deque_size in *.
    rewrite lookup_app_l by lia. reflexivity. }
  split; [reflexivity |]. split; [reflexivity |]. split.
  { intros k x Hk. by apply lookup_app_l_Some. }
  split; [| split; [lia |]].
  - intros j Hj. split.
    + rewrite !get_entry_ref_cases by assumption. rewrite Hlat', Hlat. simpl.
      destruct (Z.gtb_spec j (prev_index l)); [| reflexivity].
      destruct (Z.leb_spec j (prev_index l + deque_size (entries l) + 1)); [| lia].
      destruct (Z.leb_spec j (prev_index l + deque_size (entries l))); [| lia].
      apply Hold. lia.
    + rewrite !get_entry_term_cases by assumption. rewrite Hlat', Hlat. simpl.
      destruct (Z.geb_spec j (prev_index l)); [| reflexivity].
      destruct (Z.leb_spec j (prev_index l + deque_size (entries l) + 1)); [| lia].
      destruct (Z.leb_spec j (prev_index l + deque_size (entries l))); [| lia].
      destruct (Z.eqb_spec j (prev_index l)); [reflexivity |].
      f_equal. apply Hold. lia.
  - rewrite get_entry_ref_cases by assumption. rewrite Hlat'. simpl.
    destruct (Z.gtb_spec (prev_index l + deque_size (entries l) + 1)
                (prev_index l)); [| lia].
    rewrite Z.leb_refl.
    unfold deque_at, deque_push_back, deque_size.
    rewrite list_lookup_middle; [reflexivity | lia].
Qed.

(** C7: [make_initial(s, c)] is the state of term 0 with no vote, the
    snapshot [s] under the single config [c] and an empty log based at
    index 0 and term 0; equal arguments give the same state. *)
Theorem make_initial_value (s : state_t) (c : raft_config_t.t) :
  let p := raft_persistent_state_t.make_initial s c in
  raft_persistent_state_t.current_term p = 0
  ∧ raft_persistent_state_t.voted_for p = raft_member_id_t.nil
  ∧ raft_member_id_t.is_nil (raft_persistent_state_t.voted_for p) = true
  ∧ raft_persistent_state_t.snapshot_state p = s
  ∧ raft_persistent_state_t.snapshot_config p = raft_complex_config_t.mk c None
  ∧ raft_complex_config_t.is_joint_consensus
      (raft_persistent_state_t.snapshot_config p) = false
  ∧ prev_index (raft_persistent_state_t.log p) = 0
  ∧ prev_term (raft_persistent_state_t.log p) = 0
  ∧ entries (raft_persistent_state_t.log p) = []
  ∧ get_latest_index (raft_persistent_state_t.log p) = 0
  ∧ ∀ s' c', s' = s → c' = c →
      raft_persistent_state_t.make_initial s' c' = p.
Proof.
  simpl. repeat split. by intros s' c' -> ->.
Qed.
End log_contracts.

(** ** The contracts on sample logs *)

Lemma get_entry_term_contract_log3 :
  raft_log_t.well_typed log3
  ∧ raft_log_t.prev_index log3 ≤ 13 ≤ raft_log_t.get_latest_index log3
  ∧ ∃ e, raft_log_t.get_entry_ref log3 13 = returns e
         ∧ raft_log_t.get_entry_term log3 13 = returns (raft_log_entry_t.term e).
Proof.
  assert (Hwf : raft_log_t.well_typed log3) by solve_well_typed.
  assert (Hi : raft_log_t.prev_index log3 ≤ 13 ≤ raft_log_t.get_latest_index log3)
    by (vm_compute; split; discriminate).
  split; [exact Hwf |]. split; [exact Hi |].
  destruct (get_entry_term_contract log3 13 Hwf) as (_ & Hin & _).
  destruct (Hin Hi) as (_ & _ & Hne).
  destruct Hne as (e & _ & Href & Hterm); [discriminate |].
  exists e. split; assumption.
Defined.

Lemma delete_entries_to_contract_log3 :
  raft_log_t.well_typed log3
  ∧ raft_log_t.prev_index log3 < 12 ≤ raft_log_t.get_latest_index log3
  ∧ ∃ l', raft_log_t.delete_entries_to log3 12 = returns l'
          ∧ raft_log_t.prev_index l' = 12
          ∧ raft_log_t.prev_term l' = 3
          ∧ raft_log_t.get_entry_term log3 12 = returns (raft_log_t.prev_term l').
Proof.
  assert (Hwf : raft_log_t.well_typed log3) by solve_well_typed.
  assert (Hi : raft_log_t.prev_index log3 < 12 ≤ raft_log_t.get_latest_index log3)
    by (vm_compute; split; [reflexivity | discriminate]).
  split; [exact Hwf |]. split; [exact Hi |].
  destruct (delete_entries_to_contract log3 12 Hwf) as (Hin & _).
  destruct (Hin Hi) as (l' & Hdel & Hprev & (e & He & Hpt) & Hterm & _).
  exists l'. repeat split; try assumption.
  vm_compute in He. injection He as <-. exact Hpt.
Defined.

Lemma delete_entries_from_contract_log3 :
  raft_log_t.well_typed log3
  ∧ raft_log_t.prev_index log3 < 12 ≤ raft_log_t.get_latest_index log3
  ∧ ∃ l', raft_log_t.delete_entries_from log3 12 = returns l'
          ∧ raft_log_t.get_latest_index l' = 12 - 1.
Proof.
  assert (Hwf : raft_log_t.well_typed log3) by solve_well_typed.
  assert (Hi : raft_log_t.prev_index log3 < 12 ≤ raft_log_t.get_latest_index log3)
    by (vm_compute; split; [reflexivity | discriminate]).
  split; [exact Hwf |]. split; [exact Hi |].
  destruct (delete_entries_from_contract log3 12 Hwf Hi) as (l' & Hdel & Hlat & _).
  exists l'. split; assumption.
Defined.

Lemma delete_entries_to_keeps_terms_log3 :
  raft_log_t.well_typed log3
  ∧ raft_log_t.prev_index log3 < 11 ≤ raft_log_t.get_latest_index log3
  ∧ ∃ l', raft_log_t.delete_entries_to log3 11 = returns l'
          ∧ raft_log_t.get_latest_index l' = raft_log_t.get_latest_index log3.
Proof.
  assert (Hwf : raft_log_t.well_typed log3) by solve_well_typed.
  assert (Hi : raft_log_t.prev_index log3 < 11 ≤ raft_log_t.get_latest_index log3)
    by (vm_compute; split; [reflexivity | discriminate]).
  split; [exact Hwf |]. split; [exact Hi |].
  destruct (delete_entries_to_keeps_terms log3 11 Hwf Hi) as (l' & Hdel & Hlat & _).
  exists l'. split; assumption.
Defined.

Lemma append_below_max_log3 :
  raft_log_t.well_typed log3
  ∧ raft_log_t.prev_index log3 + deque_size (raft_log_t.entries log3)
    < uint64_modulus - 1
  ∧ raft_log_t.get_latest_index (raft_log_t.append log3 (noop_entry 6))
    = raft_log_t.get_latest_index log3 + 1
  ∧ raft_log_t.get_entry_ref (raft_log_t.append log3 (noop_entry 6))
      (raft_log_t.get_latest_index (raft_log_t.append log3 (noop_entry 6)))
    = returns (noop_entry 6).
Proof.
  assert (Hwf : raft_log_t.well_typed log3) by solve_well_typed.
  assert (Hroom : raft_log_t.prev_index log3 + deque_size (raft_log_t.entries log3)
                  < uint64_modulus - 1) by (vm_compute; reflexivity).
  split; [exact Hwf |]. split; [exact Hroom |].
  destruct (append_below_max log3 (noop_entry 6) Hwf Hroom)
    as (_ & _ & _ & _ & Hlat & Hread).
  split; assumption.
Defined.

Lemma make_initial_value_cfg3 :
  2 - 2 = 0
  ∧ raft_persistent_state_t.make_initial (2 - 2) cfg3
    = raft_persistent_state_t.make_initial 0 cfg3.
Proof.
  assert (Hs : 2 - 2 = 0) by reflexivity.
  split; [exact Hs |].
  destruct (make_initial_value 0 cfg3)
    as (_ & _ & _ & _ & _ & _ & _ & _ & _ & _ & Hsame).
  exact (Hsame (2 - 2) cfg3 Hs eq_refl).
Defined.

(** C10 as stated fails on a log that ends at the largest [uint64_t] index:
    after [append] the latest index has wrapped around to 0, the appended
    entry cannot be read there, and the entry stored before cannot be read
    at its index any more. *)
Lemma append_at_last_index :
  let e := noop_entry 8 in
  raft_log_t.well_typed log_last
  ∧ raft_log_t.get_latest_index log_last = 18446744073709551615
  ∧ raft_log_t.get_entry_ref log_last 18446744073709551615
    = returns (noop_entry 7)
  ∧ raft_log_t.get_latest_index (raft_log_t.append log_last e) = 0
  ∧ raft_log_t.get_latest_index (raft_log_t.append log_last e)
    ≠ raft_log_t.get_latest_index log_last + 1
  ∧ raft_log_t.get_entry_ref (raft_log_t.append log_last e)
      (raft_log_t.get_latest_index (raft_log_t.append log_last e))
    ≠ returns e
  ∧ raft_log_t.get_entry_ref (raft_log_t.append log_last e) 0
    = guarantee_failed back_msg
  ∧ raft_log_t.get_entry_ref (raft_log_t.append log_last e) 18446744073709551615
    = guarantee_failed forward_msg.
Proof.
  intros e. split; [unfold log_last; solve_well_typed |].
  repeat split; try (vm_compute; reflexivity); vm_compute; discriminate.
Qed.

(** * Further properties of the configurations *)

Section quorum_facts.
Implicit Types (c : raft_config_t.t) (S X F : gset raft_member_id_t.t).
Implicit Types (m : raft_member_id_t.t).

(** The majority test of [is_quorum], for a voting set of a size a
    [std::set] can have. *)
Lemma is_quorum_true_iff c X :
  std_set_fits (raft_config_t.voting_members c) →
  raft_config_t.is_quorum c X = true
  ↔ std_set_size (raft_config_t.voting_members c)
    < 2 * std_set_size (X ∩ raft_config_t.voting_members c).
Proof.
  intros Hfits. rewrite is_quorum_unfold.
  pose proof (set_size_inter_le X (raft_config_t.voting_members c)) as Hle.
  unfold std_set_fits in Hfits.
  rewrite (wrap64_small (std_set_size _)) by (unfold is_uint64; lia).
  rewrite wrap64_small by (unfold is_uint64; lia).
  rewrite Z.gtb_gt. lia.
Qed.

(** Without voters in [X] the vote count is zero, whatever the sizes. *)
Lemma is_quorum_no_voter c X :
  X ∩ raft_config_t.voting_members c = ∅ →
  raft_config_t.is_quorum c X = false.
Proof.
  intros Hnone. rewrite is_quorum_unfold, Hnone.
  unfold std_set_size. rewrite size_empty.
  change (wrap64 (wrap64 (Z.of_nat 0) * 2)) with 0.
  rewrite Z.gtb_ltb. apply Z.ltb_ge. lia.
Qed.

Lemma is_quorum_has_voter c X :
  raft_config_t.is_quorum c X = true →
  ∃ m, m ∈ X ∧ m ∈ raft_config_t.voting_members c.
Proof.
  intros Hq.
  destruct (set_choose_or_empty (X ∩ raft_config_t.voting_members c))
    as [[m Hm] | Hempty].
  - exists m. set_solver.
  - apply leibniz_equiv in Hempty.
    rewrite (is_quorum_no_voter _ _ Hempty) in Hq. discriminate.
Qed.

Lemma config_is_member_elem c m :
  raft_config_t.is_member c m = true ↔ m ∈ raft_config_t.get_all_members c.
Proof.
  unfold raft_config_t.is_member, raft_config_t.get_all_members.
  rewrite orb_true_iff, !set_count_is_one. set_solver.
Qed.

Lemma config_quorums_meet c S X :
  std_set_fits (raft_config_t.voting_members c) →
  raft_config_t.is_quorum c S = true →
  raft_config_t.is_quorum c X = true →
  ∃ m, m ∈ S ∧ m ∈ X ∧ m ∈ raft_config_t.voting_members c.
Proof.
  intros Hfits HS HX.
  apply (is_quorum_true_iff _ _ Hfits) in HS, HX.
  set (V := raft_config_t.voting_members c) in *.
  destruct (set_choose_or_empty (S ∩ X ∩ V)) as [[m Hm] | Hempty].
  { exists m. set_solver. }
  exfalso.
  assert (Hsum : size (S ∩ V ∪ X ∩ V) = (size (S ∩ V) + size (X ∩ V))%nat).
  { apply (size_union (S ∩ V) (X ∩ V)). set_solver. }
  assert (Hsub : (size (S ∩ V ∪ X ∩ V) ≤ size V)%nat).
  { apply subseteq_size. set_solver. }
  unfold std_set_size in *. lia.
Qed.

Lemma config_quorum_mono c S X :
  std_set_fits (raft_config_t.voting_members c) →
  S ⊆ X →
  raft_config_t.is_quorum c S = true →
  raft_config_t.is_quorum c X = true.
Proof.
  intros Hfits Hsub. rewrite !(is_quorum_true_iff _ _ Hfits).
  assert (Hle : (size (S ∩ raft_config_t.voting_members c)
                 ≤ size (X ∩ raft_config_t.voting_members c))%nat).
  { apply subseteq_size. set_solver. }
  unfold std_set_size. lia.
Qed.
End quorum_facts.

Section config_properties.
Implicit Types (c : raft_complex_config_t.t) (S X F : gset raft_member_id_t.t).
Implicit Types (m : raft_member_id_t.t).

(** X1: [is_member] is membership in [get_all_members()], for a complex
    config and for each [raft_config_t]. *)
Theorem is_member_iff_all_members c m :
  (raft_complex_config_t.is_member c m = true
   ↔ m ∈ raft_complex_config_t.get_all_members c)
  ∧ (raft_config_t.is_member (raft_complex_config_t.config c) m = true
     ↔ m ∈ raft_config_t.get_all_members (raft_complex_config_t.config c)).
Proof.
  split; [| apply config_is_member_elem].
  unfold raft_complex_config_t.is_member, raft_complex_config_t.get_all_members.
  rewrite orb_true_iff. destruct (raft_complex_config_t.new_config c) as [nc |].
  - rewrite elem_of_union, !config_is_member_elem. reflexivity.
  - rewrite config_is_member_elem. split; [intros [H | H] | intros H].
    + exact H.
    + discriminate.
    + left. exact H.
Qed.

(** X2: a member that may lead is a member of the cluster: [is_valid_leader]
    implies [is_member], and the member is in [get_all_members()]. *)
Theorem valid_leader_is_member c m
    (Hlead : raft_complex_config_t.is_valid_leader c m = true) :
  raft_complex_config_t.is_member c m = true
  ∧ m ∈ raft_complex_config_t.get_all_members c.
Proof.
  assert (Hconfig : ∀ cfg, raft_config_t.is_valid_leader cfg m = true →
                           raft_config_t.is_member cfg m = true).
  { intros cfg H. unfold raft_config_t.is_member.
    unfold raft_config_t.is_valid_leader in H. by rewrite H. }
  assert (Hmem : raft_complex_config_t.is_member c m = true).
  { unfold raft_complex_config_t.is_valid_leader in Hlead.
    unfold raft_complex_config_t.is_member.
    apply orb_true_iff in Hlead. apply orb_true_iff.
    destruct Hlead as [H | H]; [left; by apply Hconfig |].
    right. destruct (raft_complex_config_t.new_config c) as [nc |];
      [by apply Hconfig | discriminate]. }
  split; [exact Hmem |].
  unfold raft_complex_config_t.is_member in Hmem.
  unfold raft_complex_config_t.get_all_members.
  apply orb_true_iff in Hmem.
  destruct (raft_complex_config_t.new_config c) as [nc |].
  - apply elem_of_union. rewrite <- !config_is_member_elem. exact Hmem.
  - destruct Hmem as [H | H]; [by apply config_is_member_elem | discriminate].
Qed.

(** X3: a quorum is never empty: it holds a voting member of the config
    and, in a joint consensus, a voting member of the new config as well.
    No assumption on the sizes is needed. *)
Theorem quorum_has_voter c S
    (Hq : raft_complex_config_t.is_quorum c S = true) :
  S ≠ ∅
  ∧ (∃ m, m ∈ S
          ∧ m ∈ raft_config_t.voting_members (raft_complex_config_t.config c)
          ∧ raft_complex_config_t.is_valid_leader c m = true)
  ∧ ∀ nc, raft_complex_config_t.new_config c = Some nc →
          ∃ m, m ∈ S ∧ m ∈ raft_config_t.voting_members nc
               ∧ raft_complex_config_t.is_valid_leader c m = true.
Proof.
  unfold raft_complex_config_t.is_quorum in Hq.
  assert (Hold : raft_config_t.is_quorum (raft_complex_config_t.config c) S = true).
  { destruct (raft_complex_config_t.new_config c);
      [by apply andb_true_iff in Hq as [? _] | exact Hq]. }
  destruct (is_quorum_has_voter _ _ Hold) as (m & HmS & HmV).
  split; [set_solver |]. split.
  - exists m. repeat split; try assumption.
    unfold raft_complex_config_t.is_valid_leader, raft_config_t.is_valid_leader.
    apply orb_true_iff. left. by apply set_count_is_one.
  - intros nc Hnc. rewrite Hnc in Hq. apply andb_true_iff in Hq as [_ Hnew].
    destruct (is_quorum_has_voter _ _ Hnew) as (m' & HmS' & HmV').
    exists m'. repeat split; try assumption.
    unfold raft_complex_config_t.is_valid_leader, raft_config_t.is_valid_leader.
    rewrite Hnc. apply orb_true_iff. right. by apply set_count_is_one.
Qed.

(** X4: two quorums of the same complex config share a voting member of
    the config and, in a joint consensus, also a voting member of the new
    config. *)
Theorem quorums_intersect c S X
    (Hfits : raft_complex_config_t.fits c)
    (HS : raft_complex_config_t.is_quorum c S = true)
    (HX : raft_complex_config_t.is_quorum c X = true) :
  (∃ m, m ∈ S ∧ m ∈ X
        ∧ m ∈ raft_config_t.voting_members (raft_complex_config_t.config c))
  ∧ ∀ nc, raft_complex_config_t.new_config c = Some nc →
          ∃ m, m ∈ S ∧ m ∈ X ∧ m ∈ raft_config_t.voting_members nc.
Proof.
  destruct Hfits as [Hold Hnew].
  unfold raft_complex_config_t.is_quorum in HS, HX.
  destruct (raft_complex_config_t.new_config c) as [nc |].
  - apply andb_true_iff in HS as [HS1 HS2].
    apply andb_true_iff in HX as [HX1 HX2].
    split; [by apply config_quorums_meet |].
    intros nc' [= <-]. apply config_quorums_meet; [by apply Hnew | done | done].
  - split; [by apply config_quorums_meet |]. intros nc' [=].
Qed.

(** X5: during a joint consensus neither side decides alone: a quorum of
    the joint config of [old] and [new] shares a voting member of [old] with
    every quorum of [old] alone, and a voting member of [new] with every
    quorum of [new] alone. *)
Theorem joint_quorum_meets_both (old new : raft_config_t.t) S
    (Hold : std_set_fits (raft_config_t.voting_members old))
    (Hnew : std_set_fits (raft_config_t.voting_members new))
    (HS : raft_complex_config_t.is_quorum
            (raft_complex_config_t.mk old (Some new)) S = true) :
  (∀ X, raft_complex_config_t.is_quorum (raft_complex_config_t.mk old None) X = true →
        ∃ m, m ∈ S ∧ m ∈ X ∧ m ∈ raft_config_t.voting_members old)
  ∧ (∀ X, raft_complex_config_t.is_quorum (raft_complex_config_t.mk new None) X = true →
          ∃ m, m ∈ S ∧ m ∈ X ∧ m ∈ raft_config_t.voting_members new).
Proof.
  unfold raft_complex_config_t.is_quorum in *. simpl in *.
  apply andb_true_iff in HS as [HS1 HS2].
  split; intros X HX; by apply config_quorums_meet.
Qed.

(** X6: a superset of a quorum is a quorum. *)
Theorem is_quorum_mono c S X
    (Hfits : raft_complex_config_t.fits c)
    (Hsub : S ⊆ X)
    (HS : raft_complex_config_t.is_quorum c S = true) :
  raft_complex_config_t.is_quorum c X = true.
Proof.
  destruct Hfits as [Hold Hnew].
  unfold raft_complex_config_t.is_quorum in *.
  destruct (raft_complex_config_t.new_config c) as [nc |].
  - apply andb_true_iff in HS as [HS1 HS2]. apply andb_true_iff. split.
    + by apply (config_quorum_mono _ S).
    + apply (config_quorum_mono _ S); [by apply Hnew | done | done].
  - by apply (config_quorum_mono _ S).
Qed.

(** X7: the members left after the set [F] has failed are a quorum exactly
    when fewer than half of the voting members are in [F]. *)
Theorem quorum_survives_failures (cfg : raft_config_t.t) F
    (Hfits : std_set_fits (raft_config_t.voting_members cfg)) :
  raft_config_t.is_quorum cfg (raft_config_t.get_all_members cfg ∖ F) = true
  ↔ 2 * std_set_size (F ∩ raft_config_t.voting_members cfg)
    < std_set_size (raft_config_t.voting_members cfg).
Proof.
  rewrite (is_quorum_true_iff _ _ Hfits).
  unfold raft_config_t.get_all_members.
  set (V := raft_config_t.voting_members cfg).
  set (N := raft_config_t.non_voting_members cfg).
  replace ((∅ ∪ V ∪ N) ∖ F ∩ V) with (V ∖ (F ∩ V)) by set_solver.
  assert (Hdiff : size (V ∖ (F ∩ V)) = (size V - size (F ∩ V))%nat).
  { apply (size_difference V (F ∩ V)). set_solver. }
  assert (Hle : (size (F ∩ V) ≤ size V)%nat).
  { apply subseteq_size. set_solver. }
  unfold std_set_size. lia.
Qed.

(** X8: [operator==] on complex configs is true exactly when both sides
    hold the same sets in [config] and the same optional [new_config];
    [operator!=] is true exactly when they differ. *)
Theorem operator_eq_iff_same c (other : raft_complex_config_t.t) :
  (raft_complex_config_t.operator_eq c other = true ↔ c = other)
  ∧ (raft_complex_config_t.operator_ne c other = true ↔ c ≠ other).
Proof.
  assert (Hcfg : ∀ a b, raft_config_t.operator_eq a b = true ↔ a = b).
  { intros [va na] [vb nb]. unfold raft_config_t.operator_eq. simpl.
    rewrite andb_true_iff, !bool_decide_eq_true.
    split; [intros [-> ->]; reflexivity | intros [= -> ->]; done]. }
  assert (Heq : raft_complex_config_t.operator_eq c other = true ↔ c = other).
  { destruct c as [a oa], other as [b ob].
    unfold raft_complex_config_t.operator_eq. simpl.
    rewrite andb_true_iff, Hcfg.
    destruct oa as [x |], ob as [y |]; simpl;
      try rewrite Hcfg; split;
      try (intros [-> H]; try discriminate; subst; reflexivity);
      intros [= ]; subst; done. }
  split; [exact Heq |].
  unfold raft_complex_config_t.operator_ne. rewrite negb_true_iff.
  rewrite <- Heq. symmetry. apply not_true_iff_false.
Qed.

(** X9: in a joint consensus the two configs play the same part: swapping
    [config] and [new_config] changes none of [get_all_members()],
    [is_member], [is_quorum] and [is_valid_leader]. *)
Theorem joint_consensus_symmetric (old new : raft_config_t.t) S m :
  let c := raft_complex_config_t.mk old (Some new) in
  let c' := raft_complex_config_t.mk new (Some old) in
  raft_complex_config_t.get_all_members c = raft_complex_config_t.get_all_members c'
  ∧ raft_complex_config_t.is_member c m = raft_complex_config_t.is_member c' m
  ∧ raft_complex_config_t.is_quorum c S = raft_complex_config_t.is_quorum c' S
  ∧ raft_complex_config_t.is_valid_leader c m
    = raft_complex_config_t.is_valid_leader c' m.
Proof.
  simpl. split; [| split; [| split]].
  - unfold raft_complex_config_t.get_all_members. simpl. apply (comm_L (∪)).
  - apply orb_comm.
  - apply andb_comm.
  - apply orb_comm.
Qed.

(** X10: a joint consensus of a config with itself decides like the config
    alone: same members, same quorums, same valid leaders. *)
Theorem joint_consensus_same_config (cfg : raft_config_t.t) S m :
  let c := raft_complex_config_t.mk cfg (Some cfg) in
  raft_complex_config_t.get_all_members c = raft_config_t.get_all_members cfg
  ∧ raft_complex_config_t.is_member c m = raft_config_t.is_member cfg m
  ∧ raft_complex_config_t.is_quorum c S = raft_config_t.is_quorum cfg S
  ∧ raft_complex_config_t.is_valid_leader c m
    = raft_config_t.is_valid_leader cfg m.
Proof.
  simpl. split; [| split; [| split]].
  - unfold raft_complex_config_t.get_all_members. simpl. apply (idemp_L (∪)).
  - apply orb_diag.
  - apply andb_diag.
  - apply orb_diag.
Qed.
End config_properties.

(** ** The configuration properties on [cfg3] and [cfg_joint] *)

Ltac solve_fits :=
  first [ split; [vm_compute; reflexivity
                 | intros ? [= <-]; vm_compute; reflexivity]
        | vm_compute; reflexivity ].

Lemma valid_leader_is_member_cfg_joint :
  raft_complex_config_t.is_valid_leader cfg_joint (mid 5) = true
  ∧ raft_complex_config_t.is_member cfg_joint (mid 5) = true.
Proof.
  assert (Hlead : raft_complex_config_t.is_valid_leader cfg_joint (mid 5) = true)
    by (vm_compute; reflexivity).
  split; [exact Hlead |].
  exact (proj1 (valid_leader_is_member cfg_joint (mid 5) Hlead)).
Defined.

Lemma quorum_has_voter_cfg_joint :
  raft_complex_config_t.is_quorum cfg_joint {[mid 1; mid 3; mid 5]} = true
  ∧ ({[mid 1; mid 3; mid 5]} : gset raft_member_id_t.t) ≠ ∅.
Proof.
  assert (Hq : raft_complex_config_t.is_quorum cfg_joint
                 {[mid 1; mid 3; mid 5]} = true) by (vm_compute; reflexivity).
  split; [exact Hq |].
  exact (proj1 (quorum_has_voter cfg_joint _ Hq)).
Defined.

Lemma quorums_intersect_cfg_joint :
  raft_complex_config_t.fits cfg_joint
  ∧ raft_complex_config_t.is_quorum cfg_joint {[mid 1; mid 3; mid 5]} = true
  ∧ raft_complex_config_t.is_quorum cfg_joint {[mid 2; mid 3; mid 6]} = true
  ∧ ∃ m, m ∈ ({[mid 1; mid 3; mid 5]} : gset raft_member_id_t.t)
         ∧ m ∈ ({[mid 2; mid 3; mid 6]} : gset raft_member_id_t.t)
         ∧ m ∈ raft_config_t.voting_members cfg3.
Proof.
  assert (Hfits : raft_complex_config_t.fits cfg_joint) by solve_fits.
  assert (HS : raft_complex_config_t.is_quorum cfg_joint
                 {[mid 1; mid 3; mid 5]} = true) by (vm_compute; reflexivity).
  assert (HX : raft_complex_config_t.is_quorum cfg_joint
                 {[mid 2; mid 3; mid 6]} = true) by (vm_compute; reflexivity).
  split; [exact Hfits |]. split; [exact HS |]. split; [exact HX |].
  exact (proj1 (quorums_intersect cfg_joint _ _ Hfits HS HX)).
Defined.

Lemma joint_quorum_meets_both_cfg_joint :
  std_set_fits (raft_config_t.voting_members cfg3)
  ∧ std_set_fits (raft_config_t.voting_members cfg_next)
  ∧ raft_complex_config_t.is_quorum cfg_joint {[mid 1; mid 3; mid 5]} = true
  ∧ ∀ X, raft_complex_config_t.is_quorum
           (raft_complex_config_t.mk cfg3 None) X = true →
         ∃ m, m ∈ ({[mid 1; mid 3; mid 5]} : gset raft_member_id_t.t)
              ∧ m ∈ X ∧ m ∈ raft_config_t.voting_members cfg3.
Proof.
  assert (Hold : std_set_fits (raft_config_t.voting_members cfg3)) by solve_fits.
  assert (Hnew : std_set_fits (raft_config_t.voting_members cfg_next))
    by solve_fits.
  assert (HS : raft_complex_config_t.is_quorum cfg_joint
                 {[mid 1; mid 3; mid 5]} = true) by (vm_compute; reflexivity).
  split; [exact Hold |]. split; [exact Hnew |]. split; [exact HS |].
  exact (proj1 (joint_quorum_meets_both cfg3 cfg_next _ Hold Hnew HS)).
Defined.

Lemma is_quorum_mono_cfg_joint :
  raft_complex_config_t.fits cfg_joint
  ∧ raft_complex_config_t.is_quorum cfg_joint {[mid 1; mid 3; mid 5]} = true
  ∧ raft_complex_config_t.is_quorum cfg_joint
      ({[mid 1; mid 3; mid 5]} ∪ {[mid 9]}) = true.
Proof.
  assert (Hfits : raft_complex_config_t.fits cfg_joint) by solve_fits.
  assert (HS : raft_complex_config_t.is_quorum cfg_joint
                 {[mid 1; mid 3; mid 5]} = true) by (vm_compute; reflexivity).
  split; [exact Hfits |]. split; [exact HS |].
  apply (is_quorum_mono cfg_joint {[mid 1; mid 3; mid 5]}); [exact Hfits | | exact HS].
  apply union_subseteq_l.
Defined.

Lemma quorum_survives_failures_cfg3 :
  std_set_fits (raft_config_t.voting_members cfg3)
  ∧ raft_config_t.is_quorum cfg3
      (raft_config_t.get_all_members cfg3 ∖ {[mid 2]}) = true.
Proof.
  assert (Hfits : std_set_fits (raft_config_t.voting_members cfg3)) by solve_fits.
  split; [exact Hfits |].
  apply (quorum_survives_failures cfg3 {[mid 2]} Hfits).
  vm_compute. reflexivity.
Defined.

(** * Further properties of the log *)

Section log_more_facts.
Context {state_t : Type} `{!state_requirements state_t}.
Implicit Types (l : raft_log_t.t state_t) (e : raft_log_entry_t.t state_t).
Implicit Types (i j : raft_log_index_t).

Import raft_log_t.

Lemma delete_entries_to_outside l i :
  ¬ (prev_index l < i ≤ get_latest_index l) → crashed (delete_entries_to l i).
Proof.
  intros Hout. unfold delete_entries_to.
  destruct (Z.gtb_spec i (prev_index l)); [| by eexists].
  destruct (Z.leb_spec i (get_latest_index l)); [lia | by eexists].
Qed.

Lemma delete_entries_from_outside l i :
  ¬ (prev_index l < i ≤ get_latest_index l) → crashed (delete_entries_from l i).
Proof.
  intros Hout. unfold delete_entries_from.
  destruct (Z.gtb_spec i (prev_index l)); [| by eexists].
  destruct (Z.leb_spec i (get_latest_index l)); [lia | by eexists].
Qed.

Lemma crashed_not_out_of_range {A} (x : outcome A) : crashed x → x ≠ out_of_range.
Proof. intros [msg ->]. discriminate. Qed.

(** Reads after [append], when the next index is representable. *)
Lemma append_reads l e :
  is_uint64 (prev_index l) →
  prev_index l + deque_size (entries l) < uint64_modulus - 1 →
  get_latest_index l = prev_index l + deque_size (entries l)
  ∧ get_latest_index (append l e) = get_latest_index l + 1
  ∧ get_entry_ref (append l e) (get_latest_index l + 1) = returns e
  ∧ ∀ j, j ≤ get_latest_index l →
         get_entry_ref (append l e) j = get_entry_ref l j.
Proof.
  intros Hp Hroom.
  pose proof (deque_size_nonneg (entries l)) as Hn.
  assert (Hlat : get_latest_index l = prev_index l + deque_size (entries l)).
  { apply wrap64_small. unfold is_uint64 in *. lia. }
  assert (Hlat' : get_latest_index (append l e) = get_latest_index l + 1).
  { rewrite Hlat. unfold get_latest_index. simpl. rewrite deque_size_push_back.
    rewrite wrap64_small; unfold is_uint64 in *; lia. }
  split; [exact Hlat |]. split; [exact Hlat' |]. split.
  - rewrite get_entry_ref_cases by exact Hp. rewrite Hlat'. simpl.
    destruct (Z.gtb_spec (get_latest_index l + 1) (prev_index l)); [| lia].
    rewrite Z.leb_refl. rewrite Hlat.
    unfold deque_at, deque_push_back, deque_size.
    rewrite list_lookup_middle; [reflexivity | lia].
  - intros j Hj. rewrite !get_entry_ref_cases by exact Hp.
    rewrite Hlat'. simpl.
    destruct (Z.gtb_spec j (prev_index l)); [| reflexivity].
    destruct (Z.leb_spec j (get_latest_index l + 1)); [| lia].
    destruct (Z.leb_spec j (get_latest_index l)); [| lia].
    unfold deque_at, deque_push_back, deque_size in *.
    rewrite lookup_app_l by lia. reflexivity.
Qed.

Lemma log_eta l : mk (prev_index l) (prev_term l) (entries l) = l.
Proof. by destruct l. Qed.
End log_more_facts.

Section log_properties.
Context {state_t : Type} `{!state_requirements state_t}.
Implicit Types (l : raft_log_t.t state_t) (e : raft_log_entry_t.t state_t).
Implicit Types (i j : raft_log_index_t).

Import raft_log_t.

(** X11: on a log of [uint64_t] fields the guarantees keep every deque
    access in bounds: for any index, each operation either returns or stops
    at a guarantee; none reads or erases outside [entries]. *)
Theorem log_access_in_bounds l i (Hwf : well_typed l) :
  get_entry_ref l i ≠ out_of_range
  ∧ get_entry_term l i ≠ out_of_range
  ∧ delete_entries_from l i ≠ out_of_range
  ∧ delete_entries_to l i ≠ out_of_range.
Proof.
  destruct (decide (prev_index l < i ≤ get_latest_index l)) as [Hin | Hout].
  - destruct (get_entry_ref_in_range l i Hwf Hin) as (e & _ & Href & Hterm).
    destruct (delete_entries_to_in_range l i Hwf Hin) as (e' & _ & Hto).
    rewrite Href, Hterm, Hto, (delete_entries_from_in_range l i Hwf Hin).
    repeat split; discriminate.
  - split; [by apply crashed_not_out_of_range, get_entry_ref_outside |].
    split.
    { rewrite get_entry_term_cases by apply Hwf.
      destruct (Z.geb_spec i (prev_index l)); [| discriminate].
      destruct (Z.leb_spec i (get_latest_index l)); [| discriminate].
      destruct (Z.eqb_spec i (prev_index l)); [discriminate | lia]. }
    split; apply crashed_not_out_of_range.
    + by apply delete_entries_from_outside.
    + by apply delete_entries_to_outside.
Qed.

(** X12: [append] is undone by [delete_entries_from] at the new latest
    index, provided that index is representable. *)
Theorem append_then_delete_from l e
    (Hwf : well_typed l)
    (Hroom : prev_index l + deque_size (entries l) < uint64_modulus - 1) :
  delete_entries_from (append l e) (get_latest_index (append l e)) = returns l.
Proof.
  destruct Hwf as (Hp & _ & _ & _).
  destruct (append_reads l e Hp Hroom) as (Hlat & Hlat' & _ & _).
  pose proof (deque_size_nonneg (entries l)) as Hn.
  unfold delete_entries_from. rewrite Hlat'. simpl.
  destruct (Z.gtb_spec (get_latest_index l + 1) (prev_index l)); [| lia].
  rewrite Z.leb_refl. simpl.
  unfold is_uint64 in Hp.
  rewrite (wrap64_small (get_latest_index l + 1 - prev_index l))
    by (unfold is_uint64; lia).
  rewrite wrap64_small by (unfold is_uint64; lia).
  replace (get_latest_index l + 1 - prev_index l - 1)
    with (deque_size (entries l)) by lia.
  rewrite deque_erase_suffix by (rewrite deque_size_push_back; lia).
  unfold deque_push_back, deque_size. rewrite Nat2Z.id, take_app_length.
  simpl. by rewrite log_eta.
Qed.

(** X13: deleting the prefix up to [i] and then up to a later [j] gives the
    log that deleting up to [j] gives at once; deleting up to [i] a second
    time fails a guarantee. *)
Theorem delete_entries_to_twice l i j
    (Hwf : well_typed l)
    (Hi : prev_index l < i) (Hij : i < j) (Hj : j ≤ get_latest_index l) :
  ∃ l1 l2, delete_entries_to l i = returns l1
           ∧ delete_entries_to l1 j = returns l2
           ∧ delete_entries_to l j = returns l2
           ∧ crashed (delete_entries_to l1 i).
Proof.
  destruct (delete_entries_to_in_range l i Hwf ltac:(lia)) as (e & He & Hdel).
  destruct (prefix_deleted_reads l i e Hwf ltac:(lia) He) as (Hwf1 & Hlat1 & _ & _).
  destruct (delete_entries_to_in_range _ j Hwf1 ltac:(simpl; lia))
    as (e1 & He1 & Hdel1).
  destruct (delete_entries_to_in_range l j Hwf ltac:(lia)) as (e2 & He2 & Hdel2).
  simpl in He1, Hdel1. rewrite lookup_drop in He1.
  replace (Z.to_nat (i - prev_index l) + Z.to_nat (j - i - 1))%nat
    with (Z.to_nat (j - prev_index l - 1)) in He1 by lia.
  assert (e1 = e2) as -> by congruence.
  rewrite drop_drop in Hdel1.
  replace (Z.to_nat (i - prev_index l) + Z.to_nat (j - i))%nat
    with (Z.to_nat (j - prev_index l)) in Hdel1 by lia.
  eexists _, _. split; [exact Hdel |]. split; [exact Hdel1 |].
  split; [exact Hdel2 |].
  apply delete_entries_to_outside. simpl. lia.
Qed.

(** X14: deleting the suffix from [j] and then from an earlier [i] gives the
    log that deleting from [i] gives at once; deleting from [j] a second
    time fails a guarantee. *)
Theorem delete_entries_from_twice l i j
    (Hwf : well_typed l)
    (Hi : prev_index l < i) (Hij : i < j) (Hj : j ≤ get_latest_index l) :
  ∃ l1 l2, delete_entries_from l j = returns l1
           ∧ delete_entries_from l1 i = returns l2
           ∧ delete_entries_from l i = returns l2
           ∧ crashed (delete_entries_from l1 j).
Proof.
  pose proof (delete_entries_from_in_range l j Hwf ltac:(lia)) as Hdel.
  destruct (suffix_deleted_reads l j Hwf ltac:(lia)) as (Hwf1 & Hlat1 & _ & _).
  pose proof (delete_entries_from_in_range _ i Hwf1 ltac:(rewrite Hlat1; simpl; lia))
    as Hdel1.
  pose proof (delete_entries_from_in_range l i Hwf ltac:(lia)) as Hdel2.
  simpl in Hdel1. rewrite take_take in Hdel1.
  replace (Z.to_nat (i - prev_index l - 1) `min` Z.to_nat (j - prev_index l - 1))%nat
    with (Z.to_nat (i - prev_index l - 1)) in Hdel1 by lia.
  eexists _, _. split; [exact Hdel |]. split; [exact Hdel1 |].
  split; [exact Hdel2 |].
  apply delete_entries_from_outside. rewrite Hlat1. lia.
Qed.

(** X15: deleting the prefix up to [i] and deleting the suffix from a later
    [j] can be done in either order, with the same log as result. *)
Theorem deletes_commute l i j
    (Hwf : well_typed l)
    (Hi : prev_index l < i) (Hij : i < j) (Hj : j ≤ get_latest_index l) :
  ∃ a b x, delete_entries_to l i = returns a
           ∧ delete_entries_from a j = returns x
           ∧ delete_entries_from l j = returns b
           ∧ delete_entries_to b i = returns x.
Proof.
  destruct (delete_entries_to_in_range l i Hwf ltac:(lia)) as (e & He & Hto).
  destruct (prefix_deleted_reads l i e Hwf ltac:(lia) He) as (Hwfa & Hlata & _ & _).
  pose proof (delete_entries_from_in_range _ j Hwfa ltac:(rewrite Hlata; simpl; lia))
    as Hfrom_a.
  pose proof (delete_entries_from_in_range l j Hwf ltac:(lia)) as Hfrom.
  destruct (suffix_deleted_reads l j Hwf ltac:(lia)) as (Hwfb & Hlatb & _ & _).
  destruct (delete_entries_to_in_range _ i Hwfb ltac:(rewrite Hlatb; simpl; lia))
    as (e' & He' & Hto_b).
  simpl in *. rewrite lookup_take_lt in He' by lia.
  assert (e' = e) as -> by congruence.
  rewrite take_drop_commute in Hfrom_a.
  replace (Z.to_nat (i - prev_index l) + Z.to_nat (j - i - 1))%nat
    with (Z.to_nat (j - prev_index l - 1)) in Hfrom_a by lia.
  eexists _, _, _. split; [exact Hto |]. split; [exact Hfrom_a |].
  split; [exact Hfrom |]. exact Hto_b.
Qed.

(** X16: on a log with entries, [delete_entries_to] at the latest index and
    [delete_entries_from] at the first index both leave no entry: the first
    rebases the log at the latest index, the second leaves it at
    [prev_index]. *)
Theorem delete_all_entries l
    (Hwf : well_typed l) (Hsome : prev_index l < get_latest_index l) :
  ∃ l1 l2, delete_entries_to l (get_latest_index l) = returns l1
           ∧ entries l1 = []
           ∧ prev_index l1 = get_latest_index l
           ∧ get_latest_index l1 = get_latest_index l
           ∧ delete_entries_from l (prev_index l + 1) = returns l2
           ∧ entries l2 = []
           ∧ prev_index l2 = prev_index l
           ∧ prev_term l2 = prev_term l
           ∧ get_latest_index l2 = prev_index l.
Proof.
  pose proof (get_latest_index_no_wrap l Hwf ltac:(lia)) as Hlat.
  destruct (delete_entries_to_in_range l (get_latest_index l) Hwf ltac:(lia))
    as (e & He & Hto).
  destruct (prefix_deleted_reads l (get_latest_index l) e Hwf ltac:(lia) He)
    as (_ & Hlat1 & _ & _).
  pose proof (delete_entries_from_in_range l (prev_index l + 1) Hwf ltac:(lia))
    as Hfrom.
  destruct (suffix_deleted_reads l (prev_index l + 1) Hwf ltac:(lia))
    as (_ & Hlat2 & _ & _).
  eexists _, _. split; [exact Hto |]. simpl.
  split; [apply drop_ge; unfold deque_size in Hlat; lia |].
  split; [reflexivity |]. split; [exact Hlat1 |].
  split; [exact Hfrom |].
  split.
  { simpl.
    replace (Z.to_nat (prev_index l + 1 - prev_index l - 1)) with 0%nat by lia.
    reflexivity. }
  do 2 (split; [reflexivity |]).
  rewrite Hlat2. lia.
Qed.

(** X17: a log without entries only answers for [prev_index]: its latest
    index is [prev_index], [get_entry_term] returns [prev_term] there, and
    every other read and every deletion fails a guarantee. *)
Theorem empty_log_rejects l i
    (Hwf : well_typed l) (Hempty : entries l = []) :
  get_latest_index l = prev_index l
  ∧ get_entry_term l (prev_index l) = returns (prev_term l)
  ∧ (i ≠ prev_index l → crashed (get_entry_term l i))
  ∧ crashed (get_entry_ref l i)
  ∧ crashed (delete_entries_to l i)
  ∧ crashed (delete_entries_from l i).
Proof.
  assert (Hlat : get_latest_index l = prev_index l).
  { unfold get_latest_index. rewrite Hempty. simpl.
    rewrite Z.add_0_r. apply wrap64_small, Hwf. }
  split; [exact Hlat |]. split.
  { rewrite get_entry_term_cases by apply Hwf. rewrite Hlat.
    destruct (Z.geb_spec (prev_index l) (prev_index l)); [| lia].
    by rewrite Z.leb_refl, Z.eqb_refl. }
  split; [intros Hne; apply get_entry_term_outside; lia |].
  split; [apply get_entry_ref_outside; lia |].
  split; [apply delete_entries_to_outside; lia |].
  apply delete_entries_from_outside; lia.
Qed.

(** X18: replacing a suffix: after [delete_entries_from(i)] and [append(e)]
    the latest index is [i], [e] is read there, every index below [i] reads
    as before, and the base of the log is unchanged. *)
Theorem truncate_then_append l i e
    (Hwf : well_typed l) (Hi : prev_index l < i ≤ get_latest_index l) :
  ∃ l1, delete_entries_from l i = returns l1
        ∧ get_latest_index (append l1 e) = i
        ∧ get_entry_ref (append l1 e) i = returns e
        ∧ (∀ j, j < i → get_entry_ref (append l1 e) j = get_entry_ref l j)
        ∧ prev_index (append l1 e) = prev_index l
        ∧ prev_term (append l1 e) = prev_term l.
Proof.
  pose proof (delete_entries_from_in_range l i Hwf Hi) as Hdel.
  destruct (suffix_deleted_reads l i Hwf Hi) as (Hwf1 & Hlat1 & Href1 & _).
  pose proof (get_latest_index_uint64 l) as Hu.
  pose proof (get_latest_index_no_wrap l Hwf ltac:(lia)) as Hlat.
  eexists. split; [exact Hdel |].
  match goal with |- context [append ?x e] => set (l1 := x) in * end.
  assert (Hroom : prev_index l1 + deque_size (entries l1) < uint64_modulus - 1).
  { subst l1. simpl. rewrite deque_size_take by lia.
    unfold is_uint64 in Hu. lia. }
  destruct (append_reads l1 e ltac:(apply Hwf1) Hroom) as (_ & Hlat' & Hnew & Hold).
  rewrite Hlat1 in Hlat', Hnew, Hold.
  replace (i - 1 + 1) with i in Hlat', Hnew by lia.
  split; [exact Hlat' |]. split; [exact Hnew |].
  split; [| split; reflexivity].
  intros j Hj. rewrite Hold by lia. apply Href1. exact Hj.
Qed.

(** X19: once [prev_index + |entries|] exceeds the largest [uint64_t], the
    latest index has wrapped below [prev_index] and the log cannot be used
    any more: every read, [prev_index] included, and every deletion fails a
    guarantee. *)
Theorem wrapped_log_rejects l i
    (Hwf : well_typed l)
    (Hwrap : uint64_modulus ≤ prev_index l + deque_size (entries l)) :
  get_latest_index l < prev_index l
  ∧ crashed (get_entry_term l i)
  ∧ crashed (get_entry_ref l i)
  ∧ crashed (delete_entries_to l i)
  ∧ crashed (delete_entries_from l i).
Proof.
  assert (Hlat : get_latest_index l < prev_index l).
  { destruct (Z_lt_dec (get_latest_index l) (prev_index l)) as [Hlt | Hge];
      [exact Hlt |].
    pose proof (get_latest_index_no_wrap l Hwf ltac:(lia)) as Heq.
    pose proof (get_latest_index_uint64 l) as Hu. unfold is_uint64 in Hu. lia. }
  split; [exact Hlat |].
  split; [apply get_entry_term_outside; lia |].
  split; [apply get_entry_ref_outside; lia |].
  split; [apply delete_entries_to_outside; lia |].
  apply delete_entries_from_outside; lia.
Qed.
End log_properties.

(** ** The log properties on sample logs *)

Ltac solve_lt := vm_compute; reflexivity.
Ltac solve_le := vm_compute; discriminate.

Lemma log_access_in_bounds_log3 :
  raft_log_t.well_typed log3
  ∧ raft_log_t.get_entry_ref log3 14 ≠ out_of_range
  ∧ raft_log_t.delete_entries_to log3 12 ≠ out_of_range.
Proof.
  assert (Hwf : raft_log_t.well_typed log3) by solve_well_typed.
  split; [exact Hwf |]. split.
  - exact (proj1 (log_access_in_bounds log3 14 Hwf)).
  - exact (proj2 (proj2 (proj2 (log_access_in_bounds log3 12 Hwf)))).
Defined.

Lemma append_then_delete_from_log3 :
  raft_log_t.well_typed log3
  ∧ raft_log_t.prev_index log3 + deque_size (raft_log_t.entries log3)
    < uint64_modulus - 1
  ∧ raft_log_t.delete_entries_from (raft_log_t.append log3 (noop_entry 6))
      (raft_log_t.get_latest_index (raft_log_t.append log3 (noop_entry 6)))
    = returns log3.
Proof.
  assert (Hwf : raft_log_t.well_typed log3) by solve_well_typed.
  assert (Hroom : raft_log_t.prev_index log3 + deque_size (raft_log_t.entries log3)
                  < uint64_modulus - 1) by solve_lt.
  split; [exact Hwf |]. split; [exact Hroom |].
  exact (append_then_delete_from log3 (noop_entry 6) Hwf Hroom).
Defined.

Lemma delete_entries_to_twice_log3 :
  raft_log_t.well_typed log3
  ∧ raft_log_t.prev_index log3 < 11 ∧ 11 < 13
  ∧ 13 ≤ raft_log_t.get_latest_index log3
  ∧ ∃ l1 l2, raft_log_t.delete_entries_to log3 11 = returns l1
             ∧ raft_log_t.delete_entries_to l1 13 = returns l2
             ∧ raft_log_t.delete_entries_to log3 13 = returns l2.
Proof.
  assert (Hwf : raft_log_t.well_typed log3) by solve_well_typed.
  assert (Hi : raft_log_t.prev_index log3 < 11) by solve_lt.
  assert (Hij : 11 < 13) by solve_lt.
  assert (Hj : 13 ≤ raft_log_t.get_latest_index log3) by solve_le.
  do 4 (split; [assumption |]).
  destruct (delete_entries_to_twice log3 11 13 Hwf Hi Hij Hj)
    as (l1 & l2 & H1 & H2 & H3 & _).
  exists l1, l2. repeat split; assumption.
Defined.

Lemma delete_entries_from_twice_log3 :
  raft_log_t.well_typed log3
  ∧ raft_log_t.prev_index log3 < 11 ∧ 11 < 13
  ∧ 13 ≤ raft_log_t.get_latest_index log3
  ∧ ∃ l1 l2, raft_log_t.delete_entries_from log3 13 = returns l1
             ∧ raft_log_t.delete_entries_from l1 11 = returns l2
             ∧ raft_log_t.delete_entries_from log3 11 = returns l2.
Proof.
  assert (Hwf : raft_log_t.well_typed log3) by solve_well_typed.
  assert (Hi : raft_log_t.prev_index log3 < 11) by solve_lt.
  assert (Hij : 11 < 13) by solve_lt.
  assert (Hj : 13 ≤ raft_log_t.get_latest_index log3) by solve_le.
  do 4 (split; [assumption |]).
  destruct (delete_entries_from_twice log3 11 13 Hwf Hi Hij Hj)
    as (l1 & l2 & H1 & H2 & H3 & _).
  exists l1, l2. repeat split; assumption.
Defined.

Lemma deletes_commute_log3 :
  raft_log_t.well_typed log3
  ∧ raft_log_t.prev_index log3 < 11 ∧ 11 < 13
  ∧ 13 ≤ raft_log_t.get_latest_index log3
  ∧ ∃ a b x, raft_log_t.delete_entries_to log3 11 = returns a
             ∧ raft_log_t.delete_entries_from a 13 = returns x
             ∧ raft_log_t.delete_entries_from log3 13 = returns b
             ∧ raft_log_t.delete_entries_to b 11 = returns x.
Proof.
  assert (Hwf : raft_log_t.well_typed log3) by solve_well_typed.
  assert (Hi : raft_log_t.prev_index log3 < 11) by solve_lt.
  assert (Hij : 11 < 13) by solve_lt.
  assert (Hj : 13 ≤ raft_log_t.get_latest_index log3) by solve_le.
  do 4 (split; [assumption |]).
  exact (deletes_commute log3 11 13 Hwf Hi Hij Hj).
Defined.

Lemma delete_all_entries_log3 :
  raft_log_t.well_typed log3
  ∧ raft_log_t.prev_index log3 < raft_log_t.get_latest_index log3
  ∧ ∃ l1, raft_log_t.delete_entries_to log3 (raft_log_t.get_latest_index log3)
          = returns l1
          ∧ raft_log_t.entries l1 = [].
Proof.
  assert (Hwf : raft_log_t.well_typed log3) by solve_well_typed.
  assert (Hsome : raft_log_t.prev_index log3 < raft_log_t.get_latest_index log3)
    by solve_lt.
  split; [exact Hwf |]. split; [exact Hsome |].
  destruct (delete_all_entries log3 Hwf Hsome) as (l1 & _ & H1 & Hnil & _).
  exists l1. split; assumption.
Defined.

Lemma empty_log_rejects_log_empty :
  raft_log_t.well_typed log_empty
  ∧ raft_log_t.entries log_empty = []
  ∧ crashed (raft_log_t.get_entry_ref log_empty 11).
Proof.
  assert (Hwf : raft_log_t.well_typed log_empty) by solve_well_typed.
  assert (Hempty : raft_log_t.entries log_empty = []) by reflexivity.
  split; [exact Hwf |]. split; [exact Hempty |].
  destruct (empty_log_rejects log_empty 11 Hwf Hempty) as (_ & _ & _ & Href & _).
  exact Href.
Defined.

Lemma truncate_then_append_log3 :
  raft_log_t.well_typed log3
  ∧ raft_log_t.prev_index log3 < 12 ≤ raft_log_t.get_latest_index log3
  ∧ ∃ l1, raft_log_t.delete_entries_from log3 12 = returns l1
          ∧ raft_log_t.get_entry_ref (raft_log_t.append l1 (noop_entry 6)) 12
            = returns (noop_entry 6).
Proof.
  assert (Hwf : raft_log_t.well_typed log3) by solve_well_typed.
  assert (Hi : raft_log_t.prev_index log3 < 12 ≤ raft_log_t.get_latest_index log3)
    by (split; [solve_lt | solve_le]).
  split; [exact Hwf |]. split; [exact Hi |].
  destruct (truncate_then_append log3 12 (noop_entry 6) Hwf Hi)
    as (l1 & Hdel & _ & Hread & _).
  exists l1. split; assumption.
Defined.

Lemma wrapped_log_rejects_log_wrapped :
  raft_log_t.well_typed log_wrapped
  ∧ uint64_modulus
    ≤ raft_log_t.prev_index log_wrapped + deque_size (raft_log_t.entries log_wrapped)
  ∧ crashed (raft_log_t.get_entry_term log_wrapped
               (raft_log_t.prev_index log_wrapped)).
Proof.
  assert (Hwf : raft_log_t.well_typed log_wrapped)
    by (unfold log_wrapped; solve_well_typed).
  assert (Hwrap : uint64_modulus
                  ≤ raft_log_t.prev_index log_wrapped
                    + deque_size (raft_log_t.entries log_wrapped)) by solve_le.
  split; [exact Hwf |]. split; [exact Hwrap |].
  destruct (wrapped_log_rejects log_wrapped (raft_log_t.prev_index log_wrapped)
              Hwf Hwrap) as (_ & Hterm & _).
  exact Hterm.
Defined.
